(** * Consistent hashing with virtual nodes: a verification development

    Shallow embedding of [hash_function.py], [hash_ring.py] and
    [rebalancer.py], and the properties of the ring that the design
    document states.

    Conventions.
    - A Python [str] is modelled by its UTF-8 byte string ([string]), so
      [data.encode("utf-8")] is the identity and [sorted] on strings is the
      byte-wise lexicographic order. The strings of the development are
      therefore the [str] values that have a UTF-8 encoding; on any other
      (one that holds a lone surrogate) [data.encode("utf-8")] raises
      [UnicodeEncodeError], and such a value has no counterpart here.
    - A Python [int] is a [Z]; list indices are [nat].
    - A [dict] is a [gmap]; the claims never depend on insertion order.
    - A method that mutates [self] is a function from the ring before the
      call to the pair of the outcome ([inl] exception, [inr] value) and the
      ring after the call, so that what an exception leaves behind is
      visible.
    - The one loop without a bound of its own, the collision loop of
      [add_node], takes fuel; [None] stands for a call that has not
      returned within it.
    - Floats are kept behind the interface [PyFloat]; the statements hold
      for every implementation of it, and the examples run the one with
      exact fractions. *)

From Stdlib Require Import ZArith Lia QArith Qreduction Qpower.
From stdpp Require Import gmap strings list fin_maps sorting pretty.

Local Open Scope Z_scope.

(** ** hash_function.py *)

Module HashFunction.

Definition RING_BITS : Z := 32.
Definition RING_SIZE : Z := 2 ^ RING_BITS.

(** *** SHA-1 (hashlib.sha1), FIPS 180-4, on 32-bit words held in [Z] *)

Definition w32 (x : Z) : Z := Z.land x 4294967295.

Definition rotl (n x : Z) : Z :=
  w32 (Z.lor (Z.shiftl x n) (Z.shiftr x (32 - n))).

Definition bytes_of_string (s : string) : list Z :=
  (λ a, Z.of_N (Ascii.N_of_ascii a)) <$> String.list_ascii_of_string s.

(** Big-endian bytes of [x], [n] of them. *)
Fixpoint be_bytes (n : nat) (x : Z) : list Z :=
  match n with
  | O => []
  | S n' => Z.land (Z.shiftr x (8 * Z.of_nat n')) 255 :: be_bytes n' x
  end.

Definition pad (msg : list Z) : list Z :=
  let len := Z.of_nat (length msg) in
  let zeros := Z.to_nat ((55 - len) `mod` 64) in
  msg ++ [128] ++ replicate zeros 0 ++ be_bytes 8 (8 * len).

Fixpoint be_words (fuel : nat) (bs : list Z) : list Z :=
  match fuel, bs with
  | S f, b0 :: b1 :: b2 :: b3 :: rest =>
      (Z.shiftl b0 24 + Z.shiftl b1 16 + Z.shiftl b2 8 + b3) :: be_words f rest
  | _, _ => []
  end.

(** The message schedule, most recent word first. *)
Fixpoint schedule (n : nat) (rev_ws : list Z) : list Z :=
  match n with
  | O => rev_ws
  | S n' =>
      let w := rotl 1 (Z.lxor (Z.lxor (nth 2 rev_ws 0) (nth 7 rev_ws 0))
                              (Z.lxor (nth 13 rev_ws 0) (nth 15 rev_ws 0))) in
      schedule n' (w :: rev_ws)
  end.

Definition state : Type := Z * Z * Z * Z * Z.

Definition round (t : Z) (w : Z) (st : state) : state :=
  let '(a, b, c, d, e) := st in
  let '(f, k) :=
    if t <? 20 then (Z.lor (Z.land b c) (Z.land (Z.lxor b 4294967295) d), 1518500249)
    else if t <? 40 then (Z.lxor (Z.lxor b c) d, 1859775393)
    else if t <? 60 then (Z.lor (Z.lor (Z.land b c) (Z.land b d)) (Z.land c d), 2400959708)
    else (Z.lxor (Z.lxor b c) d, 3395469782) in
  (w32 (rotl 5 a + f + e + k + w), a, rotl 30 b, c, d).

Fixpoint rounds (t : Z) (ws : list Z) (st : state) : state :=
  match ws with
  | [] => st
  | w :: ws' => rounds (t + 1) ws' (round t w st)
  end.

Definition compress (st : state) (block : list Z) : state :=
  let '(h0, h1, h2, h3, h4) := st in
  let ws := rev (schedule 64 (rev (be_words 16 block))) in
  let '(a, b, c, d, e) := rounds 0 ws st in
  (w32 (h0 + a), w32 (h1 + b), w32 (h2 + c), w32 (h3 + d), w32 (h4 + e)).

Fixpoint blocks (fuel : nat) (bs : list Z) (st : state) : state :=
  match fuel, bs with
  | S f, _ :: _ => blocks f (drop 64 bs) (compress st (take 64 bs))
  | _, _ => st
  end.

Definition sha1_init : state :=
  (1732584193, 4023233417, 2562383102, 271733878, 3285377520).

Definition sha1 (msg : list Z) : state :=
  let p := pad msg in blocks (length p) p sha1_init.

(** [int.from_bytes(digest[:4], byteorder="big", signed=False)]: the first
    four digest bytes are the big-endian bytes of the first state word.
    [data] is the UTF-8 encoding of the argument, so the function is defined
    on the arguments that have one; on the others the source raises
    [UnicodeEncodeError] before it hashes anything. *)
Definition hash32 (data : string) : Z :=
  let '(h0, _, _, _, _) := sha1 (bytes_of_string data) in h0.

End HashFunction.

(** ** Python exceptions and the standard-library helpers the ring uses *)

Inductive exn : Type :=
  | ValueError (msg : string)
  | RuntimeError (msg : string)
  | KeyError
  | IndexError
  | StatisticsError (msg : string).

#[global] Instance exn_eq_dec : EqDecision exn.
Proof. solve_decision. Defined.

(** [bisect.bisect_left(a, x)]: the loop
    [while lo < hi: mid = (lo + hi) // 2; if a[mid] < x: lo = mid + 1 else: hi = mid].
    The interval shrinks at every turn, so [length a] turns are enough
    ([bisect_loop_fuel] below). *)
Fixpoint bisect_loop (fuel : nat) (a : list Z) (x : Z) (lo hi : nat) : nat :=
  match fuel with
  | O => lo
  | S f =>
      if decide (lo < hi)%nat then
        let mid := ((lo + hi) `div` 2)%nat in
        if decide (a !!! mid < x) then bisect_loop f a x (mid + 1)%nat hi
        else bisect_loop f a x lo mid
      else lo
  end.

Definition bisect_left (a : list Z) (x : Z) : nat :=
  bisect_loop (length a) a x 0%nat (length a).

(** [list.insert(idx, x)] for [idx >= 0], and [list.pop(idx)] for an index
    within the list, which is where [remove_node] calls it. *)
Definition list_insert_at (idx : nat) (x : Z) (l : list Z) : list Z :=
  take idx l ++ x :: drop idx l.

Definition list_pop_at (idx : nat) (l : list Z) : list Z :=
  take idx l ++ drop (S idx) l.

(** ** hash_ring.py *)

Record Node : Type := mkNode { node_id : string }.

Record VNode : Type := mkVNode { physical : Node; replica_index : Z }.

#[global] Instance Node_eq_dec : EqDecision Node.
Proof. solve_decision. Defined.

#[global] Instance VNode_eq_dec : EqDecision VNode.
Proof. solve_decision. Defined.

Definition vnode_key (v : VNode) : string :=
  node_id (physical v) +:+ "#vn" +:+ pretty (replica_index v).

Record HashRing : Type := mkHashRing {
  vnodes_per_node : Z;
  hash_fn : string → Z;
  _positions : list Z;
  _vnode_at : gmap Z VNode;
  _positions_by_node : gmap string (list Z)
}.

Definition set_positions (ps : list Z) (r : HashRing) : HashRing :=
  mkHashRing (vnodes_per_node r) (hash_fn r) ps (_vnode_at r) (_positions_by_node r).

Definition set_vnode_at (m : gmap Z VNode) (r : HashRing) : HashRing :=
  mkHashRing (vnodes_per_node r) (hash_fn r) (_positions r) m (_positions_by_node r).

Definition set_positions_by_node (m : gmap string (list Z)) (r : HashRing) : HashRing :=
  mkHashRing (vnodes_per_node r) (hash_fn r) (_positions r) (_vnode_at r) m.

(** [HashRing.__init__]: [hash_fn or HashFunction()]. *)
Definition HashRing_init (vnodes_per_node : Z) (hash_fn : option (string → Z))
  : exn + HashRing :=
  if decide (vnodes_per_node ≤ 0) then
    inl (ValueError "vnodes_per_node must be > 0")
  else
    inr (mkHashRing vnodes_per_node (default HashFunction.hash32 hash_fn) [] ∅ ∅).

(** The key hashed at a given attempt: the ring key itself first, then the
    ring key suffixed with ["@<attempt>"]. *)
Definition retry_key (key : string) (attempt : Z) : string :=
  key +:+ "@" +:+ pretty attempt.

(** The collision loop of [add_node]:
    [while pos in self._vnode_at: attempt += 1; pos = hash32(f"{key}@{attempt}")].
    [None] when the loop is still running after [fuel] turns. *)
Fixpoint probe (fuel : nat) (hash : string → Z) (vnode_at : gmap Z VNode)
    (key : string) (attempt : Z) (pos : Z) : option Z :=
  if decide (is_Some (vnode_at !! pos)) then
    match fuel with
    | O => None
    | S f =>
        let attempt := attempt + 1 in
        probe f hash vnode_at key attempt (hash (retry_key key attempt))
    end
  else Some pos.

(** One turn of [for i in range(self.vnodes_per_node)]. *)
Definition place_vnode (fuel : nat) (node : Node) (i : Z)
    (st : HashRing * list Z) : option (HashRing * list Z) :=
  let '(r, pos_list) := st in
  let vnode := mkVNode node i in
  match probe fuel (hash_fn r) (_vnode_at r) (vnode_key vnode) 0
              (hash_fn r (vnode_key vnode)) with
  | None => None
  | Some pos =>
      let idx := bisect_left (_positions r) pos in
      let r := set_positions (list_insert_at idx pos (_positions r)) r in
      let r := set_vnode_at (<[pos := vnode]> (_vnode_at r)) r in
      Some (r, pos_list ++ [pos])
  end.

Fixpoint place_vnodes (fuel : nat) (node : Node) (indices : list Z)
    (st : HashRing * list Z) : option (HashRing * list Z) :=
  match indices with
  | [] => Some st
  | i :: rest =>
      match place_vnode fuel node i st with
      | None => None
      | Some st' => place_vnodes fuel node rest st'
      end
  end.

(** [HashRing.add_node]. [fuel] bounds each run of the collision loop;
    [None] means that some run did not finish within it. *)
Definition add_node (fuel : nat) (node : Node) (r : HashRing)
  : option ((exn + unit) * HashRing) :=
  if decide (is_Some (_positions_by_node r !! node_id node)) then
    Some (inl (ValueError ("Node " +:+ node_id node +:+ " already exists in ring")), r)
  else
    match place_vnodes fuel node (seqZ 0 (vnodes_per_node r)) (r, []) with
    | None => None
    | Some (r', pos_list) =>
        Some (inr (), set_positions_by_node
                        (<[node_id node := pos_list]> (_positions_by_node r')) r')
    end.

(** The loop of [remove_node]; an exception leaves the ring as the loop has
    changed it so far. *)
Fixpoint remove_positions (pos_list : list Z) (r : HashRing) : (exn + unit) * HashRing :=
  match pos_list with
  | [] => (inr (), r)
  | pos :: rest =>
      let r := set_vnode_at (delete pos (_vnode_at r)) r in
      let idx := bisect_left (_positions r) pos in
      if bool_decide (length (_positions r) ≤ idx)%nat
         || bool_decide (_positions r !!! idx ≠ pos) then
        (inl (RuntimeError "Ring corruption: position missing from sorted index"), r)
      else
        remove_positions rest (set_positions (list_pop_at idx (_positions r)) r)
  end.

(** [HashRing.remove_node]. *)
Definition remove_node (node_id : string) (r : HashRing) : (exn + unit) * HashRing :=
  match _positions_by_node r !! node_id with
  | None => (inl (ValueError ("Node " +:+ node_id +:+ " not found in ring")), r)
  | Some pos_list =>
      match remove_positions pos_list r with
      | (inl e, r') => (inl e, r')
      | (inr _, r') =>
          (inr (), set_positions_by_node (delete node_id (_positions_by_node r')) r')
      end
  end.

(** [HashRing.get_node_for_key]; it does not change the ring. *)
Definition get_node_for_key (r : HashRing) (key : string) : exn + Node :=
  match _positions r with
  | [] => inl (ValueError "Ring is empty")
  | _ =>
      let h := hash_fn r key in
      let idx := bisect_left (_positions r) h in
      let idx := if decide (idx = length (_positions r)) then 0%nat else idx in
      match _positions r !! idx with
      | None => inl IndexError
      | Some p =>
          match _vnode_at r !! p with
          | None => inl KeyError
          | Some vnode => inr (physical vnode)
          end
      end
  end.

(** [sorted(self._positions_by_node.keys())]. *)
Definition list_nodes (r : HashRing) : list string :=
  merge_sort String.le (elements (dom (_positions_by_node r))).

Definition total_vnodes (r : HashRing) : Z := Z.of_nat (length (_positions r)).

(** [HashRing.__len__]. *)
Definition node_count (r : HashRing) : Z := Z.of_nat (size (_positions_by_node r)).

(** *** Small runs *)

Definition ring_of (K : Z) (ids : list string) : option HashRing :=
  match HashRing_init K None with
  | inl _ => None
  | inr r0 =>
      foldl (λ acc id, r ← acc;
                       match add_node 8 (mkNode id) r with
                       | Some (inr _, r') => Some r'
                       | _ => None
                       end) (Some r0) ids
  end.

(** ** Floats, and the standard-library helpers the metrics use *)

(** Floats enter the metrics in three ways: as the float nearest to an
    exact integer or fraction ([float(x)], [int / int], float literals), as
    a product of two floats, and as the square root that
    [statistics.pstdev] takes of the exact variance. The metrics are
    modelled over any implementation of the three. *)
Class PyFloat (F : Type) : Type := {
  float_of_Q : Q → F;
  float_mul : F → F → F;
  float_sqrt_Q : Q → F
}.

Definition float_of_Z {F : Type} `{PyFloat F} (z : Z) : F := float_of_Q (inject_Z z).

(** Exact arithmetic: rationals, with square roots and the products that
    involve them left symbolic. *)
Inductive exact : Type :=
  | Rational (q : Q)
  | SqrtOf (q : Q)
  | Product (x y : exact).

#[global] Instance exact_float : PyFloat exact := {
  float_of_Q := Rational;
  float_mul := λ x y,
    match x, y with
    | Rational a, Rational b => Rational (Qred (Qmult a b))
    | _, _ => Product x y
    end;
  float_sqrt_Q := SqrtOf
}.

Definition sum_Z (l : list Z) : Z := foldr Z.add 0 l.

(** [collections.Counter(iterable)]: [self[elem] = self.get(elem, 0) + 1]
    for each element. *)
Definition Counter (elems : list string) : gmap string Z :=
  foldl (λ c elem, <[elem := default 0 (c !! elem) + 1]> c) ∅ elems.

(** [min(values)] and [max(values)] of a list. *)
Definition py_min (values : list Z) : exn + Z :=
  match values with
  | [] => inl (ValueError "min() arg is an empty sequence")
  | x :: rest => inr (foldl Z.min x rest)
  end.

Definition py_max (values : list Z) : exn + Z :=
  match values with
  | [] => inl (ValueError "max() arg is an empty sequence")
  | x :: rest => inr (foldl Z.max x rest)
  end.

(** The module [statistics] on lists of integers, by its documented
    contract: exact arithmetic on fractions, a [StatisticsError] on empty
    data. *)
Module statistics.

Definition mean (data : list Z) : exn + Q :=
  match data with
  | [] => inl (StatisticsError "mean requires at least one data point")
  | _ => inr (Qred (Qdiv (inject_Z (sum_Z data)) (inject_Z (Z.of_nat (length data)))))
  end.

(** The sum of the squared deviations from [mu]. *)
Definition sum_sq_dev (mu : Q) (data : list Z) : Q :=
  foldr (λ x acc, Qplus (Qpower (Qminus (inject_Z x) mu) 2) acc) (inject_Z 0) data.

Definition pvariance (data : list Z) : exn + Q :=
  match data with
  | [] => inl (StatisticsError "pvariance requires at least one data point")
  | _ =>
      let n := inject_Z (Z.of_nat (length data)) in
      let mu := Qdiv (inject_Z (sum_Z data)) n in
      inr (Qred (Qdiv (sum_sq_dev mu data) n))
  end.

Definition pstdev {F : Type} `{PyFloat F} (data : list Z) : exn + F :=
  match pvariance data with
  | inl e => inl e
  | inr v => inr (float_sqrt_Q v)
  end.

End statistics.

(** ** rebalancer.py *)

(** The dictionary that [distribution_stats] returns. *)
Module Stats.

Record t (F : Type) : Type := mk {
  nodes : F;
  keys : F;
  mean : F;
  variance : F;
  stdev : F;
  min : F;
  max : F
}.

Arguments mk {F}.
Arguments nodes {F}.
Arguments keys {F}.
Arguments mean {F}.
Arguments variance {F}.
Arguments stdev {F}.
Arguments min {F}.
Arguments max {F}.

End Stats.

Module Rebalancer.

(** [map_keys]: one lookup per key, later keys overwrite earlier ones; an
    exception of the lookup ends the loop. *)
Definition map_keys (ring : HashRing) (keys : list string) : exn + gmap string string :=
  foldl (λ acc k,
           match acc with
           | inl e => inl e
           | inr out =>
               match get_node_for_key ring k with
               | inl e => inl e
               | inr n => inr (<[k := node_id n]> out)
               end
           end) (inr ∅) keys.

Definition moved_key_stats {F : Type} `{PyFloat F} (before after : gmap string string)
  : exn + (Z * Z * F) :=
  if decide (dom before ≠ dom after) then
    inl (ValueError "Key sets differ; cannot compare movement")
  else
    let total := Z.of_nat (size before) in
    let moved := Z.of_nat (length (filter (λ kv, after !! kv.1 ≠ Some kv.2)
                                          (map_to_list before))) in
    let pct := if decide (total ≠ 0)
               then float_mul (float_of_Q (Qdiv (inject_Z moved) (inject_Z total)))
                              (float_of_Z 100)
               else float_of_Z 0 in
    inr (moved, total, pct).

Definition distribution_stats {F : Type} `{PyFloat F} (mapping : gmap string string)
  : exn + Stats.t F :=
  let counts := Counter (map_to_list mapping).*2 in
  let values := (map_to_list counts).*2 in
  match values with
  | [] =>
      inr (Stats.mk (float_of_Z 0) (float_of_Z 0) (float_of_Z 0) (float_of_Z 0)
                    (float_of_Z 0) (float_of_Z 0) (float_of_Z 0))
  | _ =>
      match statistics.mean values with
      | inl e => inl e
      | inr mean =>
      match statistics.pvariance values with
      | inl e => inl e
      | inr variance =>
      match statistics.pstdev values with
      | inl e => inl e
      | inr stdev =>
      match py_min values with
      | inl e => inl e
      | inr lo =>
      match py_max values with
      | inl e => inl e
      | inr hi =>
          inr (Stats.mk (float_of_Z (Z.of_nat (length values)))
                        (float_of_Z (sum_Z values))
                        (float_of_Q mean)
                        (float_of_Q variance)
                        stdev
                        (float_of_Z lo)
                        (float_of_Z hi))
      end end end end end
  end.

Definition expected_move_fraction_add {F : Type} `{PyFloat F} (total_nodes_after : Z) : F :=
  if decide (total_nodes_after ≤ 0) then float_of_Z 0
  else float_of_Q (Qdiv (inject_Z 1) (inject_Z total_nodes_after)).

End Rebalancer.

(** ** Specification vocabulary *)

(** Ascending order, read through indices. *)
Definition ascending (a : list Z) : Prop :=
  ∀ i j y z, (i ≤ j)%nat → a !! i = Some y → a !! j = Some z → y ≤ z.

(** The three indices agree: the position sequence is strictly ascending
    and lists exactly the occupied positions, the [i]-th position recorded
    for a node holds that node's [i]-th virtual node, and every virtual
    node on the ring is recorded, at its replica index, in the list of its
    physical node. *)
Definition index_inv (ps : list Z) (va : gmap Z VNode)
    (pbn : gmap string (list Z)) : Prop :=
  StronglySorted Z.lt ps ∧
  (∀ p, p ∈ ps ↔ is_Some (va !! p)) ∧
  (∀ id pl i p, pbn !! id = Some pl → pl !! i = Some p →
     va !! p = Some (mkVNode (mkNode id) (Z.of_nat i))) ∧
  (∀ p v, va !! p = Some v →
     ∃ pl, pbn !! node_id (physical v) = Some pl ∧ 0 ≤ replica_index v ∧
           pl !! Z.to_nat (replica_index v) = Some p).

Record ring_inv (r : HashRing) : Prop := {
  inv_K : 0 < vnodes_per_node r;
  inv_index : index_inv (_positions r) (_vnode_at r) (_positions_by_node r);
  inv_length : ∀ id pl, _positions_by_node r !! id = Some pl →
                 Z.of_nat (length pl) = vnodes_per_node r
}.

(** The states a caller can bring a ring into: construction, then any
    sequence of [add_node] and [remove_node] calls that return or raise. *)
Inductive step : HashRing → HashRing → Prop :=
  | step_add fuel node r res r' :
      add_node fuel node r = Some (res, r') → step r r'
  | step_remove id r res r' :
      remove_node id r = (res, r') → step r r'.

Inductive reachable : HashRing → Prop :=
  | reachable_init K h r :
      HashRing_init K h = inr r → reachable r
  | reachable_step r r' :
      reachable r → step r r' → reachable r'.

(** The position tried at each attempt of the collision loop. *)
Definition candidate (hash : string → Z) (key : string) (attempt : nat) : Z :=
  match attempt with
  | O => hash key
  | S _ => hash (retry_key key (Z.of_nat attempt))
  end.

(** A position is occupied when the [k]-th virtual node of a call is
    placed if the ring before the call holds it, or one of the [k] virtual
    nodes the call has placed so far. *)
Definition occupied_at (va : gmap Z VNode) (new : list Z) (k : nat) (q : Z) : Prop :=
  is_Some (va !! q) ∨ q ∈ take k new.

(** [p] is where the collision policy puts virtual node [first + k] of
    [node]: the position of the first attempt that is not occupied. *)
Definition first_free (hash : string → Z) (va : gmap Z VNode) (node : Node)
    (first : nat) (new : list Z) (k : nat) (p : Z) : Prop :=
  let key := vnode_key (mkVNode node (Z.of_nat (first + k))) in
  ∃ a : nat,
    p = candidate hash key a ∧
    ¬ occupied_at va new k p ∧
    ∀ b, (b < a)%nat → occupied_at va new k (candidate hash key b).

(** The string hashed for replica [i] of the node [id] at attempt [a], in
    the words of the design document: ["<node_id>#vn<i>"] at the first
    attempt, then ["<node_id>#vn<i>@<a>"] for [a] = 1, 2, ... *)
Definition attempt_string (id : string) (i : Z) (a : nat) : string :=
  match a with
  | O => id +:+ "#vn" +:+ pretty i
  | S _ => id +:+ "#vn" +:+ pretty i +:+ "@" +:+ pretty (Z.of_nat a)
  end.

(** The collision policy of the design document: [new] lists, replica by
    replica, the position of the first attempt that is not occupied when
    the replica is placed. *)
Definition placed_by_policy (hash : string → Z) (va : gmap Z VNode) (id : string)
    (new : list Z) : Prop :=
  ∀ k p, new !! k = Some p →
    ∃ a : nat,
      p = hash (attempt_string id (Z.of_nat k) a) ∧
      ¬ occupied_at va new k p ∧
      ∀ b, (b < a)%nat → occupied_at va new k (hash (attempt_string id (Z.of_nat k) b)).

(** The ring after one virtual node has been placed at [pos]. *)
Definition placed (node : Node) (i : Z) (pos : Z) (r : HashRing) : HashRing :=
  mkHashRing (vnodes_per_node r) (hash_fn r)
    (list_insert_at (bisect_left (_positions r) pos) pos (_positions r))
    (<[pos := mkVNode node i]> (_vnode_at r))
    (_positions_by_node r).

(** [p] is the clockwise successor of [h] among the positions [ps]: the
    least position at or after [h], or the least position of all when every
    position lies before [h]. *)
Definition successor_of (ps : list Z) (h p : Z) : Prop :=
  p ∈ ps ∧
  ((h ≤ p ∧ ∀ q, q ∈ ps → h ≤ q → p ≤ q) ∨
   ((∀ q, q ∈ ps → q < h) ∧ ∀ q, q ∈ ps → p ≤ q)).

(** The invariant of the position index as the design document words it:
    the sequence is strictly ascending and free of duplicates, it lists
    exactly the keys of the position-to-virtual-node mapping, and each
    virtual node of each member occupies exactly one position. *)
Definition position_index_invariant (r : HashRing) : Prop :=
  StronglySorted Z.lt (_positions r) ∧
  NoDup (_positions r) ∧
  (∀ p, p ∈ _positions r ↔ p ∈ dom (_vnode_at r)) ∧
  (∀ id i, id ∈ dom (_positions_by_node r) → 0 ≤ i < vnodes_per_node r →
     ∃ p, _vnode_at r !! p = Some (mkVNode (mkNode id) i) ∧
          ∀ q, _vnode_at r !! q = Some (mkVNode (mkNode id) i) → q = p).

(** The positions at which the ring holds a virtual node of [id]. *)
Definition positions_of (r : HashRing) (id : string) : list Z :=
  filter (λ p, node_id ∘ physical <$> _vnode_at r !! p = Some id) (_positions r).

(** *** Rings used in the examples *)

Definition ring_empty : HashRing := mkHashRing 2 HashFunction.hash32 [] ∅ ∅.

Definition after_add (id : string) (r : HashRing) : HashRing :=
  match add_node 4 (mkNode id) r with
  | Some (_, r') => r'
  | None => r
  end.

(** Under SHA-1 the keys ["node_12008#vn1"] and ["node_25593#vn1"] hash to
    the same position, 488658250, so adding the second node exercises the
    collision loop. *)
Definition ring_a : HashRing := after_add "node_12008" ring_empty.
Definition ring_ab : HashRing := after_add "node_25593" ring_a.

Definition returns {A S : Type} (x : option ((exn + A) * S)) : bool :=
  match x with
  | Some (inr _, _) => true
  | _ => false
  end.

(** The keys whose node differs between two mappings. *)
Definition moved_keys (before after : gmap string string) : gset string :=
  filter (λ k, before !! k ≠ after !! k) (dom before).

(** The node identifiers a mapping sends keys to, the number of keys it
    sends to one of them, and these numbers listed node by node. *)
Definition members (mapping : gmap string string) : gset string := map_img mapping.

Definition load (mapping : gmap string string) (id : string) : Z :=
  Z.of_nat (length (filter (λ kv, kv.2 = id) (map_to_list mapping))).

Definition loads (mapping : gmap string string) : list Z :=
  load mapping <$> elements (members mapping).

Definition ring_b : HashRing := (remove_node "node_12008" ring_ab).2.

(** An empty ring whose injected hash function sends every string to 0. *)
Definition ring_constant_hash : HashRing := mkHashRing 2 (λ _, 0) [] ∅ ∅.

(** Population statistics of a list of integers as the design document
    means them: the arithmetic mean, and the mean of the squared deviations
    from it. *)
Definition arithmetic_mean (xs : list Z) : Q :=
  Qdiv (inject_Z (sum_Z xs)) (inject_Z (Z.of_nat (length xs))).

Fixpoint sum_Q (qs : list Q) : Q :=
  match qs with
  | [] => inject_Z 0
  | q :: qs' => Qplus q (sum_Q qs')
  end.

Definition squared_deviation (mu : Q) (x : Z) : Q :=
  Qmult (Qminus (inject_Z x) mu) (Qminus (inject_Z x) mu).

Definition population_variance (xs : list Z) : Q :=
  Qdiv (sum_Q (squared_deviation (arithmetic_mean xs) <$> xs))
       (inject_Z (Z.of_nat (length xs))).

(** The string that the collision loop hashes at a given attempt. *)
Definition attempt_key (key : string) (attempt : nat) : string :=
  match attempt with
  | O => key
  | S _ => retry_key key (Z.of_nat attempt)
  end.

(** *** Mappings used in the examples *)

Definition sample_keys : list string := ["user:1"; "user:2"; "user:3"; "user:4"].

Definition mapping_of (r : HashRing) (keys : list string) : gmap string string :=
  match Rebalancer.map_keys r keys with
  | inr m => m
  | inl _ => ∅
  end.

(** * Properties *)

(** ** Test vectors and small runs *)

Example sha1_empty : HashFunction.hash32 "" = 3661210606.
Proof. vm_compute. reflexivity. Qed.

Example sha1_abc : HashFunction.hash32 "abc" = 2845392438.
Proof. vm_compute. reflexivity. Qed.

Example sha1_two_blocks :
  HashFunction.hash32 "abcdbcdecdefdefgefghfghighijhijkijkljklmklmnlmnomnopnopq"
  = 2224569924.
Proof. vm_compute. reflexivity. Qed.

Example ring_abc_positions :
  _positions <$> ring_of 1 ["A"; "B"; "C"]
  = Some [2426476662; 3193904315; 3484818151].
Proof. vm_compute. reflexivity. Qed.



(** ** Binary search *)

Section bisect.
Implicit Types (a : list Z) (x : Z).

Lemma StronglySorted_lt_lookup a i j y z :
  StronglySorted Z.lt a → (i < j)%nat → a !! i = Some y → a !! j = Some z → y < z.
Proof.
  intros Hs. revert i j. induction Hs as [|w l Hs IH Hall]; intros i j Hij Hi Hj.
  - by rewrite lookup_nil in Hi.
  - destruct j as [|j]; [lia|]. destruct i as [|i]; simpl in *.
    + injection Hi as <-. rewrite Forall_forall in Hall.
      apply Hall. by eapply list_elem_of_lookup_2.
    + eapply (IH i j); [lia|done..].
Qed.

Lemma StronglySorted_lt_ascending a : StronglySorted Z.lt a → ascending a.
Proof.
  intros Hs i j y z Hij Hi Hj.
  destruct (decide (i = j)) as [->|Hne].
  - rewrite Hi in Hj. injection Hj as ->. lia.
  - assert (y < z); [|lia].
    eapply (StronglySorted_lt_lookup a i j); [done|lia|done..].
Qed.

Lemma StronglySorted_lt_NoDup a : StronglySorted Z.lt a → NoDup a.
Proof.
  induction 1 as [|w l Hs IH Hall]; constructor; [|done].
  intros Hin. rewrite Forall_forall in Hall. specialize (Hall _ Hin). lia.
Qed.

(** The loop is over once [hi - lo] turns have been taken, on any list:
    more fuel does not change what it returns. *)
Lemma bisect_loop_fuel fuel fuel' a x lo hi :
  (hi - lo ≤ fuel)%nat → (hi - lo ≤ fuel')%nat →
  bisect_loop fuel a x lo hi = bisect_loop fuel' a x lo hi.
Proof.
  revert fuel' lo hi. induction fuel as [|f IH]; intros fuel' lo hi Hf Hf'.
  - destruct fuel' as [|f']; cbn [bisect_loop]; [done|].
    by rewrite decide_False by lia.
  - cbn [bisect_loop]. destruct (decide (lo < hi)%nat) as [Hlt|Hge].
    + destruct fuel' as [|f']; [lia|]. cbn [bisect_loop].
      destruct (decide (lo < hi)%nat); [|lia].
      pose proof (Nat.div_mod_eq (lo + hi) 2).
      pose proof (Nat.mod_upper_bound (lo + hi) 2).
      destruct (decide _); apply IH; lia.
    + destruct fuel' as [|f']; cbn [bisect_loop]; [done|].
      by rewrite decide_False by done.
Qed.

(** What the loop keeps and what it returns. *)
Lemma bisect_loop_spec fuel a x lo hi :
  ascending a →
  (lo ≤ hi ≤ length a)%nat →
  (hi - lo ≤ fuel)%nat →
  (∀ j y, (j < lo)%nat → a !! j = Some y → y < x) →
  (∀ j y, (hi ≤ j)%nat → a !! j = Some y → x ≤ y) →
  let i := bisect_loop fuel a x lo hi in
  (lo ≤ i ≤ hi)%nat ∧
  (∀ j y, (j < i)%nat → a !! j = Some y → y < x) ∧
  (∀ j y, (i ≤ j)%nat → a !! j = Some y → x ≤ y).
Proof.
  intros Hasc. revert lo hi.
  induction fuel as [|f IH]; intros lo hi Hb Hf Hlo Hhi; cbn [bisect_loop].
  { assert (lo = hi) as -> by lia. split_and!; [lia|lia|done|done]. }
  destruct (decide (lo < hi)%nat) as [Hlt|Hge]; cycle 1.
  { assert (lo = hi) as -> by lia. split_and!; [lia|lia|done|done]. }
  pose proof (Nat.div_mod_eq (lo + hi) 2) as Hdm.
  pose proof (Nat.mod_upper_bound (lo + hi) 2) as Hmod.
  set (mid := ((lo + hi) `div` 2)%nat) in *.
  assert (lo ≤ mid < hi)%nat as Hmid by lia.
  destruct (lookup_lt_is_Some_2 a mid) as [w Hw]; [lia|].
  rewrite (list_lookup_total_correct _ _ _ Hw).
  destruct (decide (w < x)) as [Hwx|Hwx].
  - assert (∀ j y, (j < mid + 1)%nat → a !! j = Some y → y < x) as Hlo'.
    { intros j y Hj Hy. assert (y ≤ w); [|lia].
      eapply (Hasc j mid); [lia|done..]. }
    destruct (IH (mid + 1)%nat hi ltac:(lia) ltac:(lia) Hlo' Hhi) as (? & ? & ?).
    split_and!; [lia|lia|done|done].
  - assert (∀ j y, (mid ≤ j)%nat → a !! j = Some y → x ≤ y) as Hhi'.
    { intros j y Hj Hy. assert (w ≤ y); [|lia].
      eapply (Hasc mid j); [lia|done..]. }
    destruct (IH lo mid ltac:(lia) ltac:(lia) Hlo Hhi') as (? & ? & ?).
    split_and!; [lia|lia|done|done].
Qed.

Lemma bisect_left_le_length a x : (bisect_left a x ≤ length a)%nat.
Proof.
  unfold bisect_left. generalize (length a) at 1 as fuel.
  assert (∀ fuel lo hi, (lo ≤ hi)%nat → (bisect_loop fuel a x lo hi ≤ hi)%nat) as H.
  { induction fuel as [|f IH]; intros lo hi Hle; cbn [bisect_loop]; [done|].
    destruct (decide (lo < hi)%nat); [|done].
    pose proof (Nat.div_mod_eq (lo + hi) 2).
    pose proof (Nat.mod_upper_bound (lo + hi) 2).
    destruct (decide _).
    - apply IH. lia.
    - etrans; [apply IH|]; lia. }
  intros fuel. apply H. lia.
Qed.

(** On an ascending list [bisect_left] splits it into the elements below
    [x] and the elements at or above [x]. *)
Lemma bisect_left_spec a x :
  ascending a →
  (∀ j y, (j < bisect_left a x)%nat → a !! j = Some y → y < x) ∧
  (∀ j y, (bisect_left a x ≤ j)%nat → a !! j = Some y → x ≤ y).
Proof.
  intros Hasc. unfold bisect_left.
  destruct (bisect_loop_spec (length a) a x 0 (length a)) as (_ & ? & ?);
    [done|lia|lia|lia| |done].
  intros j y Hj Hy. apply lookup_lt_Some in Hy. lia.
Qed.

Lemma bisect_left_take_drop a x :
  ascending a →
  Forall (λ y, y < x) (take (bisect_left a x) a) ∧
  Forall (λ y, x ≤ y) (drop (bisect_left a x) a).
Proof.
  intros [Hlo Hhi]%(bisect_left_spec a x). split; apply Forall_lookup_2.
  - intros j y Hy. pose proof (lookup_lt_Some _ _ _ Hy) as Hlen.
    rewrite length_take in Hlen. rewrite lookup_take_lt in Hy by lia.
    eapply Hlo; [|done]. lia.
  - intros j y Hy. rewrite lookup_drop in Hy. eapply Hhi; [|done]. lia.
Qed.

(** An element of a strictly ascending list is found at its own index. *)
Lemma bisect_left_found a x :
  StronglySorted Z.lt a → x ∈ a →
  a !! bisect_left a x = Some x.
Proof.
  intros Hs [k Hk]%list_elem_of_lookup_1.
  pose proof (StronglySorted_lt_ascending _ Hs) as Hasc.
  destruct (bisect_left_spec a x Hasc) as [Hlo Hhi].
  assert (bisect_left a x ≤ k)%nat as Hle.
  { destruct (decide (bisect_left a x ≤ k)%nat); [done|].
    pose proof (Hlo k x ltac:(lia) Hk). lia. }
  destruct (lookup_lt_is_Some_2 a (bisect_left a x)) as [w Hw].
  { apply lookup_lt_Some in Hk. lia. }
  rewrite Hw. f_equal.
  pose proof (Hhi _ _ (le_n _) Hw).
  pose proof (Hasc _ _ _ _ Hle Hw Hk). lia.
Qed.

End bisect.

(** ** Insertion into and removal from the ordered sequence *)

Section ordered_sequence.
Implicit Types (a : list Z) (x y : Z) (idx : nat).

Lemma elem_of_list_insert_at idx x a y :
  y ∈ list_insert_at idx x a ↔ y = x ∨ y ∈ a.
Proof.
  unfold list_insert_at. rewrite <-(take_drop idx a) at 3.
  rewrite !elem_of_app, elem_of_cons. tauto.
Qed.

Lemma length_list_insert_at idx x a :
  length (list_insert_at idx x a) = S (length a).
Proof.
  unfold list_insert_at. rewrite <-(take_drop idx a) at 3.
  rewrite !length_app. simpl. lia.
Qed.

Lemma list_insert_at_sorted a x :
  StronglySorted Z.lt a → x ∉ a →
  StronglySorted Z.lt (list_insert_at (bisect_left a x) x a).
Proof.
  intros Hs Hx. unfold list_insert_at.
  destruct (bisect_left_take_drop a x) as [Hlo Hhi];
    [by apply StronglySorted_lt_ascending|].
  set (i := bisect_left a x) in *.
  rewrite <-(take_drop i a) in Hs, Hx.
  apply StronglySorted_app in Hs as (Hcross & Hs1 & Hs2).
  rewrite Forall_forall in Hlo, Hhi.
  assert (∀ y, y ∈ drop i a → x < y) as Hhi'.
  { intros y Hy. specialize (Hhi _ Hy).
    assert (y ≠ x); [|lia]. intros ->. apply Hx. set_solver. }
  apply StronglySorted_app. split_and!; [|done|].
  - intros y z Hy [->|Hz]%elem_of_cons; [by apply Hlo|by apply Hcross].
  - apply StronglySorted_cons. split; [|done]. by apply Forall_forall.
Qed.

Lemma list_pop_at_middle idx x a :
  a !! idx = Some x → a = take idx a ++ x :: drop (S idx) a.
Proof. intros. by rewrite take_drop_middle. Qed.

Lemma length_list_pop_at idx x a :
  a !! idx = Some x → S (length (list_pop_at idx a)) = length a.
Proof.
  intros H. rewrite (list_pop_at_middle idx x a H) at 2.
  unfold list_pop_at. rewrite !length_app. simpl. lia.
Qed.

Lemma list_pop_at_sorted idx x a :
  StronglySorted Z.lt a → a !! idx = Some x →
  StronglySorted Z.lt (list_pop_at idx a).
Proof.
  intros Hs H. rewrite (list_pop_at_middle idx x a H) in Hs.
  unfold list_pop_at.
  apply StronglySorted_app in Hs as (Hcross & Hs1 & Hs2).
  apply StronglySorted_cons in Hs2 as [_ Hs2].
  apply StronglySorted_app. split_and!; [|done..].
  intros y z Hy Hz. apply Hcross; [done|]. set_solver.
Qed.

Lemma elem_of_list_pop_at idx x a y :
  StronglySorted Z.lt a → a !! idx = Some x →
  y ∈ list_pop_at idx a ↔ y ∈ a ∧ y ≠ x.
Proof.
  intros Hs H. pose proof (StronglySorted_lt_NoDup _ Hs) as Hnd.
  rewrite (list_pop_at_middle idx x a H) in Hnd |- * at 2.
  unfold list_pop_at.
  apply NoDup_app in Hnd as (_ & Hdisj & [Hx _]%NoDup_cons).
  rewrite !elem_of_app, elem_of_cons. split.
  - intros [Hy|Hy]; (split; [tauto|]); intros ->; [|done].
    apply (Hdisj x Hy). set_solver.
  - tauto.
Qed.

End ordered_sequence.

Section collision_loop.
Context (hash : string → Z) (va : gmap Z VNode) (key : string).

Lemma probe_step fuel k :
  probe (S fuel) hash va key (Z.of_nat k) (candidate hash key k) =
  if decide (is_Some (va !! candidate hash key k)) then
    probe fuel hash va key (Z.of_nat (S k)) (candidate hash key (S k))
  else Some (candidate hash key k).
Proof.
  cbn [probe]. destruct (decide _); [|done].
  replace (Z.of_nat k + 1) with (Z.of_nat (S k)) by lia. done.
Qed.

Lemma probe_zero k :
  probe 0 hash va key (Z.of_nat k) (candidate hash key k) =
  if decide (is_Some (va !! candidate hash key k)) then None
  else Some (candidate hash key k).
Proof. done. Qed.

(** A finished loop stopped at the first attempt whose position is free. *)
Lemma probe_Some fuel k pos :
  probe fuel hash va key (Z.of_nat k) (candidate hash key k) = Some pos →
  ∃ a, (k ≤ a ≤ k + fuel)%nat ∧ pos = candidate hash key a ∧ va !! pos = None ∧
       ∀ b, (k ≤ b < a)%nat → is_Some (va !! candidate hash key b).
Proof.
  revert k. induction fuel as [|f IH]; intros k.
  - rewrite probe_zero. destruct (decide _) as [|Hfree]; [done|].
    intros [= <-]. exists k. split_and!; [lia|lia|done| |intros; lia].
    by apply eq_None_not_Some.
  - rewrite probe_step. destruct (decide _) as [Hocc|Hfree].
    + intros (a & ? & ? & ? & Hb)%IH. exists a. split_and!; [lia|lia|done..|].
      intros b ?. destruct (decide (b = k)) as [->|]; [done|]. apply Hb. lia.
    + intros [= <-]. exists k. split_and!; [lia|lia|done| |intros; lia].
      by apply eq_None_not_Some.
Qed.

(** The loop finishes as soon as the fuel reaches a free attempt. *)
Lemma probe_total fuel k a :
  (k ≤ a ≤ k + fuel)%nat → va !! candidate hash key a = None →
  is_Some (probe fuel hash va key (Z.of_nat k) (candidate hash key k)).
Proof.
  revert k. induction fuel as [|f IH]; intros k Hka Ha.
  - rewrite probe_zero. assert (a = k) as -> by lia.
    rewrite decide_False; [done|]. rewrite Ha. by intros [??].
  - rewrite probe_step. destruct (decide _) as [Hocc|]; [|done].
    apply IH; [|done]. assert (a ≠ k); [|lia].
    intros ->. rewrite Ha in Hocc. by destruct Hocc.
Qed.

Lemma probe_mono fuel fuel' k pos :
  (fuel ≤ fuel')%nat →
  probe fuel hash va key (Z.of_nat k) (candidate hash key k) = Some pos →
  probe fuel' hash va key (Z.of_nat k) (candidate hash key k) = Some pos.
Proof.
  revert fuel' k. induction fuel as [|f IH]; intros fuel' k Hle.
  - rewrite probe_zero. destruct (decide _) as [|Hfree]; [done|].
    intros [= <-]. destruct fuel'; [by rewrite probe_zero, decide_False|].
    by rewrite probe_step, decide_False.
  - destruct fuel' as [|f']; [lia|]. rewrite !probe_step.
    destruct (decide _); [|done]. apply IH. lia.
Qed.

End collision_loop.

(** ** [add_node] *)

Lemma place_vnode_Some fuel node i r pl st' :
  place_vnode fuel node i (r, pl) = Some st' →
  ∃ pos, probe fuel (hash_fn r) (_vnode_at r) (vnode_key (mkVNode node i)) 0
               (hash_fn r (vnode_key (mkVNode node i))) = Some pos ∧
         st' = (placed node i pos r, pl ++ [pos]).
Proof.
  unfold place_vnode. destruct (probe _ _ _ _ _ _) as [pos|]; [|done].
  intros [= <-]. by exists pos.
Qed.

Lemma place_vnode_probe fuel node i r pl pos :
  probe fuel (hash_fn r) (_vnode_at r) (vnode_key (mkVNode node i)) 0
        (hash_fn r (vnode_key (mkVNode node i))) = Some pos →
  place_vnode fuel node i (r, pl) = Some (placed node i pos r, pl ++ [pos]).
Proof. unfold place_vnode. by intros ->. Qed.

Lemma index_inv_fresh ps va pbn id :
  pbn !! id = None → index_inv ps va pbn → index_inv ps va (<[id := []]> pbn).
Proof.
  intros Hid (Hs & Hdom & Hpl & Hv). split_and!; [done..| |].
  - intros id' pl i p. rewrite lookup_insert. case_decide; simplify_eq.
    + intros [= <-]. by rewrite lookup_nil.
    + apply Hpl.
  - intros p v (pl & Hl & ? & ?)%Hv. exists pl. split; [|done].
    rewrite lookup_insert_ne; [done|]. congruence.
Qed.

Lemma index_inv_place ps va pbn id pl pos :
  index_inv ps va (<[id := pl]> pbn) → va !! pos = None →
  index_inv (list_insert_at (bisect_left ps pos) pos ps)
            (<[pos := mkVNode (mkNode id) (Z.of_nat (length pl))]> va)
            (<[id := pl ++ [pos]]> pbn).
Proof.
  intros (Hs & Hdom & Hpl & Hv) Hpos.
  assert (pos ∉ ps) as Hnin.
  { rewrite Hdom, Hpos. by intros [??]. }
  split_and!.
  - by apply list_insert_at_sorted.
  - intros p. rewrite elem_of_list_insert_at, lookup_insert, Hdom.
    case_decide; [|intuition congruence]. subst. split; [by eexists|by left].
  - intros id' pl' i p Hl Hi.
    assert (p ≠ pos → va !! p = Some (mkVNode (mkNode id') (Z.of_nat i)) →
            <[pos:=mkVNode (mkNode id) (Z.of_nat (length pl))]> va !! p
            = Some (mkVNode (mkNode id') (Z.of_nat i))) as Hold.
    { intros. by rewrite lookup_insert_ne. }
    destruct (decide (id = id')) as [<-|Hne].
    + rewrite lookup_insert_eq in Hl. injection Hl as <-.
      destruct (decide (i < length pl)%nat).
      * rewrite lookup_app_l in Hi by done.
        assert (va !! p = Some (mkVNode (mkNode id) (Z.of_nat i))) as Hp.
        { apply (Hpl id pl); [|done]. by rewrite lookup_insert_eq. }
        apply Hold; [|done]. intros ->. by rewrite Hpos in Hp.
      * rewrite lookup_app_r in Hi by lia.
        apply list_lookup_singleton_Some in Hi as [Hi ->].
        rewrite lookup_insert_eq. do 3 f_equal. lia.
    + rewrite lookup_insert_ne in Hl by done.
      assert (va !! p = Some (mkVNode (mkNode id') (Z.of_nat i))) as Hp.
      { apply (Hpl id' pl'); [|done]. by rewrite lookup_insert_ne. }
      apply Hold; [|done]. intros ->. by rewrite Hpos in Hp.
  - intros p v. destruct (decide (pos = p)) as [<-|Hne].
    + rewrite lookup_insert_eq. intros [= <-]. simpl. exists (pl ++ [pos]).
      rewrite lookup_insert_eq, Nat2Z.id, lookup_app_r, Nat.sub_diag by lia.
      split_and!; [done|lia|done].
    + rewrite lookup_insert_ne by done.
      intros (pl0 & Hl & ? & Hi)%Hv.
      destruct (decide (id = node_id (physical v))) as [Heq|Hne'].
      * rewrite <-Heq in *. rewrite lookup_insert_eq in Hl. injection Hl as <-.
        exists (pl ++ [pos]). rewrite lookup_insert_eq. split_and!; [done..|].
        rewrite lookup_app_l; [done|]. by eapply lookup_lt_Some.
      * rewrite lookup_insert_ne in Hl by done.
        exists pl0. by rewrite lookup_insert_ne.
Qed.

(** What the loop over the replica indices keeps, from the moment the
    first [length pl] virtual nodes have been placed. *)
Lemma place_vnodes_inv n fuel node r pl r' pl' :
  index_inv (_positions r) (_vnode_at r)
            (<[node_id node := pl]> (_positions_by_node r)) →
  place_vnodes fuel node (seqZ (Z.of_nat (length pl)) (Z.of_nat n)) (r, pl)
  = Some (r', pl') →
  index_inv (_positions r') (_vnode_at r')
            (<[node_id node := pl']> (_positions_by_node r')) ∧
  _positions_by_node r' = _positions_by_node r ∧
  vnodes_per_node r' = vnodes_per_node r ∧
  hash_fn r' = hash_fn r ∧
  length pl' = (length pl + n)%nat ∧
  length (_positions r') = (length (_positions r) + n)%nat.
Proof.
  revert r pl. induction n as [|n IH]; intros r pl Hinv.
  { rewrite seqZ_nil by lia. intros [= <- <-]. split_and!; [done..|lia|lia]. }
  rewrite seqZ_cons by lia. cbn [place_vnodes].
  destruct (place_vnode _ _ _ _) as [st1|] eqn:Hst; [|done].
  apply place_vnode_Some in Hst as (pos & Hprobe & ->).
  apply (probe_Some _ _ _ _ 0%nat) in Hprobe as (a & _ & _ & Hfree & _).
  replace (Z.succ (Z.of_nat (length pl))) with (Z.of_nat (length (pl ++ [pos])))
    by (rewrite length_app; simpl; lia).
  replace (Z.pred (Z.of_nat (S n))) with (Z.of_nat n) by lia.
  intros Hrun. apply IH in Hrun as (? & ? & ? & ? & Hlen & Hps).
  - rewrite length_app in Hlen. simpl in *.
    rewrite length_list_insert_at in Hps.
    split_and!; [done..|lia|lia].
  - simpl. destruct node as [id]. by apply index_inv_place.
Qed.

Lemma add_node_inv fuel node r res r' :
  ring_inv r → add_node fuel node r = Some (res, r') → ring_inv r'.
Proof.
  intros [HK Hidx Hlen]. unfold add_node.
  destruct (decide _) as [|Hnew]; [by intros [= <- <-]|].
  apply eq_None_not_Some in Hnew.
  destruct (place_vnodes _ _ _ _) as [[r1 pl]|] eqn:Hrun; [|done].
  intros [= <- <-].
  replace (seqZ 0 (vnodes_per_node r))
    with (seqZ (Z.of_nat (length (@nil Z))) (Z.of_nat (Z.to_nat (vnodes_per_node r))))
    in Hrun by (simpl; by rewrite Z2Nat.id by lia).
  apply place_vnodes_inv in Hrun as (Hinv & Hpbn & HK' & _ & Hl & _);
    [|by apply index_inv_fresh].
  split; simpl.
  - lia.
  - done.
  - intros id pl0. rewrite Hpbn. destruct (decide (node_id node = id)) as [<-|].
    + rewrite lookup_insert_eq. intros [= <-]. simpl in Hl. lia.
    + rewrite lookup_insert_ne by done. rewrite HK'. apply Hlen.
Qed.

(** ** [remove_node] *)

(** On a strictly ascending sequence that holds every position of
    [pos_list], the removal loop runs to its end, and takes exactly these
    positions out of both indices. *)
Lemma remove_positions_spec pos_list r :
  StronglySorted Z.lt (_positions r) →
  NoDup pos_list →
  (∀ p, p ∈ pos_list → p ∈ _positions r) →
  ∃ r', remove_positions pos_list r = (inr (), r') ∧
    vnodes_per_node r' = vnodes_per_node r ∧
    hash_fn r' = hash_fn r ∧
    _positions_by_node r' = _positions_by_node r ∧
    StronglySorted Z.lt (_positions r') ∧
    (∀ p, p ∈ _positions r' ↔ p ∈ _positions r ∧ p ∉ pos_list) ∧
    (length (_positions r') + length pos_list)%nat = length (_positions r) ∧
    (∀ p, _vnode_at r' !! p =
          if decide (p ∈ pos_list) then None else _vnode_at r !! p).
Proof.
  revert r. induction pos_list as [|pos rest IH]; intros r Hs Hnd Hin.
  { exists r. split_and!; [done..| | |].
    - intros p. rewrite elem_of_nil. tauto.
    - simpl. lia.
    - intros p. rewrite decide_False; [done|]. apply not_elem_of_nil. }
  apply NoDup_cons in Hnd as [Hpos Hnd].
  assert (_positions r !! bisect_left (_positions r) pos = Some pos) as Hidx.
  { apply bisect_left_found; [done|]. apply Hin. by left. }
  cbn [remove_positions]. simpl.
  rewrite (list_lookup_total_correct _ _ _ Hidx).
  rewrite bool_decide_eq_false_2 by (apply lookup_lt_Some in Hidx; lia).
  rewrite bool_decide_eq_false_2 by (by intros ?).
  simpl.
  edestruct (IH (set_positions (list_pop_at (bisect_left (_positions r) pos)
                                             (_positions r))
                  (set_vnode_at (delete pos (_vnode_at r)) r)))
    as (r' & Hrun & ? & ? & ? & ? & Hel & Hlen & Hva); simpl.
  { by eapply list_pop_at_sorted. }
  { done. }
  { intros p Hp. rewrite elem_of_list_pop_at by done. split.
    - apply Hin. by right.
    - by intros ->. }
  exists r'. split_and!; [done..| | |].
  - intros p. rewrite Hel. simpl. rewrite elem_of_list_pop_at by done.
    rewrite not_elem_of_cons. tauto.
  - simpl in Hlen. apply length_list_pop_at in Hidx. lia.
  - intros p. rewrite Hva. simpl.
    destruct (decide (p = pos)) as [->|Hne].
    + rewrite lookup_delete_eq, (decide_True (P := pos ∈ pos :: rest)) by by left.
      by destruct (decide _).
    + rewrite lookup_delete_ne by done.
      destruct (decide (p ∈ rest)).
      * rewrite decide_True; [done|]. by right.
      * rewrite decide_False; [done|]. rewrite not_elem_of_cons. tauto.
Qed.

Lemma ring_inv_pos_list r id pl :
  ring_inv r → _positions_by_node r !! id = Some pl →
  NoDup pl ∧ ∀ p, p ∈ pl → p ∈ _positions r.
Proof.
  intros [_ (Hs & Hdom & Hpl & _) _] Hid. split.
  - apply NoDup_alt. intros i j p Hi Hj.
    pose proof (Hpl _ _ _ _ Hid Hi) as H1.
    pose proof (Hpl _ _ _ _ Hid Hj) as H2.
    rewrite H1 in H2. injection H2. lia.
  - intros p [i Hi]%list_elem_of_lookup_1. apply Hdom.
    rewrite (Hpl _ _ _ _ Hid Hi). by eexists.
Qed.

(** Removing a member: the call returns, the ring stays well formed, and
    exactly the member's positions leave the indices. *)
Lemma remove_node_member r id pl :
  ring_inv r → _positions_by_node r !! id = Some pl →
  ∃ r', remove_node id r = (inr (), r') ∧
    ring_inv r' ∧
    vnodes_per_node r' = vnodes_per_node r ∧
    hash_fn r' = hash_fn r ∧
    _positions_by_node r' = delete id (_positions_by_node r) ∧
    (∀ p, p ∈ _positions r' ↔ p ∈ _positions r ∧ p ∉ pl) ∧
    (length (_positions r') + length pl)%nat = length (_positions r) ∧
    (∀ p, _vnode_at r' !! p = if decide (p ∈ pl) then None else _vnode_at r !! p).
Proof.
  intros Hinv Hid. destruct (ring_inv_pos_list _ _ _ Hinv Hid) as [Hnd Hin].
  destruct Hinv as [HK (Hs & Hdom & Hpl & Hv) Hlen].
  destruct (remove_positions_spec pl r Hs Hnd Hin)
    as (r1 & Hrun & HK1 & Hh1 & Hpbn1 & Hs1 & Hel1 & Hlen1 & Hva1).
  unfold remove_node. rewrite Hid, Hrun.
  eexists. split; [done|]. simpl. split_and!; try done; [|by rewrite Hpbn1].
  split; simpl.
  - lia.
  - split_and!.
    + done.
    + intros p. rewrite Hel1, Hva1, Hdom.
      destruct (decide (p ∈ pl)); [|tauto].
      split; [tauto|]. by intros [??].
    + intros id' pl' i p. rewrite Hpbn1.
      destruct (decide (id = id')) as [<-|Hne]; [by rewrite lookup_delete_eq|].
      rewrite lookup_delete_ne by done. intros Hid' Hi.
      pose proof (Hpl _ _ _ _ Hid' Hi) as Hp.
      rewrite Hva1, decide_False; [done|].
      intros [j Hj]%list_elem_of_lookup_1.
      pose proof (Hpl _ _ _ _ Hid Hj) as Hp'. congruence.
    + intros p v. rewrite Hva1, Hpbn1.
      destruct (decide (p ∈ pl)) as [|Hnin]; [done|].
      intros (pl0 & Hl & ? & Hi)%Hv. exists pl0. split_and!; [|done..].
      rewrite lookup_delete_ne; [done|]. intros Heq.
      rewrite <-Heq, Hid in Hl. injection Hl as <-.
      apply Hnin. by eapply list_elem_of_lookup_2.
  - intros id' pl'. rewrite Hpbn1, HK1.
    destruct (decide (id = id')) as [<-|Hne]; [by rewrite lookup_delete_eq|].
    rewrite lookup_delete_ne by done. apply Hlen.
Qed.

Lemma remove_node_inv id r res r' :
  ring_inv r → remove_node id r = (res, r') → ring_inv r'.
Proof.
  intros Hinv. destruct (_positions_by_node r !! id) as [pl|] eqn:Hid.
  - destruct (remove_node_member _ _ _ Hinv Hid) as (r1 & -> & ? & _).
    by intros [= <- <-].
  - unfold remove_node. rewrite Hid. by intros [= <- <-].
Qed.

Lemma HashRing_init_inv K h r : HashRing_init K h = inr r → ring_inv r.
Proof.
  unfold HashRing_init. destruct (decide _); [done|]. intros [= <-].
  split; simpl; [lia| |done].
  split_and!; [constructor| |done..].
  intros p. rewrite elem_of_nil, lookup_empty. split; [done|by intros [??]].
Qed.

Lemma step_ring_inv r r' : ring_inv r → step r r' → ring_inv r'.
Proof.
  intros Hinv Hstep. destruct Hstep.
  - by eapply add_node_inv.
  - by eapply remove_node_inv.
Qed.

Lemma reachable_ring_inv r : reachable r → ring_inv r.
Proof. induction 1; eauto using HashRing_init_inv, step_ring_inv. Qed.

(** ** Lookup *)

Lemma successor_of_lookup ps h :
  StronglySorted Z.lt ps → ps ≠ [] →
  ∃ p, ps !! (if decide (bisect_left ps h = length ps) then 0%nat
              else bisect_left ps h) = Some p ∧
       successor_of ps h p.
Proof.
  intros Hs Hne. pose proof (StronglySorted_lt_ascending _ Hs) as Hasc.
  destruct (bisect_left_spec ps h Hasc) as [Hlo Hhi].
  pose proof (bisect_left_le_length ps h) as Hle.
  destruct (decide _) as [Heq|Hneq].
  - destruct ps as [|p0 rest]; [done|]. exists p0. split; [done|].
    split; [by left|]. right. split.
    + intros q [j Hj]%list_elem_of_lookup_1. eapply Hlo; [|done].
      apply lookup_lt_Some in Hj. lia.
    + intros q [j Hj]%list_elem_of_lookup_1.
      eapply (Hasc 0%nat j); [lia|done..].
  - destruct (lookup_lt_is_Some_2 ps (bisect_left ps h)) as [p Hp]; [lia|].
    exists p. split; [done|]. split; [by eapply list_elem_of_lookup_2|].
    left. split; [by eapply (Hhi _ p (le_n _))|].
    intros q [j Hj]%list_elem_of_lookup_1 Hq.
    destruct (decide (bisect_left ps h ≤ j)%nat).
    + by eapply (Hasc _ j).
    + pose proof (Hlo j q ltac:(lia) Hj). lia.
Qed.

Lemma successor_of_exact ps h p : successor_of ps h p → h ∈ ps → p = h.
Proof.
  intros [Hp [[Hle Hmin]|[Hall _]]] Hh.
  - specialize (Hmin h Hh). lia.
  - specialize (Hall h Hh). lia.
Qed.

Lemma get_node_for_key_spec r key :
  ring_inv r → _positions r ≠ [] →
  ∃ p vnode, successor_of (_positions r) (hash_fn r key) p ∧
             _vnode_at r !! p = Some vnode ∧
             get_node_for_key r key = inr (physical vnode).
Proof.
  intros [_ (Hs & Hdom & _ & _) _] Hne.
  destruct (successor_of_lookup _ (hash_fn r key) Hs Hne) as (p & Hp & Hsucc).
  assert (is_Some (_vnode_at r !! p)) as [vnode Hv].
  { apply Hdom. by destruct Hsucc. }
  exists p, vnode. split_and!; [done..|].
  unfold get_node_for_key. destruct (_positions r) eqn:Hps; [done|].
  cbv zeta. by rewrite Hp, Hv.
Qed.

Lemma get_node_for_key_member r key n :
  ring_inv r → get_node_for_key r key = inr n →
  is_Some (_positions_by_node r !! node_id n).
Proof.
  intros [_ (_ & _ & _ & Hv) _]. unfold get_node_for_key.
  destruct (_positions r); [done|]. cbv zeta.
  destruct (_ !! _) as [p|]; [|done].
  destruct (_vnode_at r !! p) as [v|] eqn:Hp; [|done].
  intros [= <-]. destruct (Hv _ _ Hp) as (pl & -> & _). by eexists.
Qed.

Lemma get_node_for_key_empty r key :
  get_node_for_key r key = inl (ValueError "Ring is empty") ↔ _positions r = [].
Proof.
  unfold get_node_for_key. destruct (_positions r); [done|]. cbv zeta.
  split; [|done]. by repeat case_match.
Qed.

Lemma elem_of_list_nodes r id :
  id ∈ list_nodes r ↔ is_Some (_positions_by_node r !! id).
Proof.
  unfold list_nodes. rewrite merge_sort_Permutation, elem_of_elements.
  apply elem_of_dom.
Qed.

Lemma total_vnodes_pos r : 0 < total_vnodes r ↔ _positions r ≠ [].
Proof. unfold total_vnodes. destruct (_positions r); simpl; split; (done || lia). Qed.

(** ** Configuration is never touched *)

Lemma place_vnodes_config fuel node indices st st' :
  place_vnodes fuel node indices st = Some st' →
  vnodes_per_node st'.1 = vnodes_per_node st.1 ∧
  hash_fn st'.1 = hash_fn st.1 ∧
  _positions_by_node st'.1 = _positions_by_node st.1.
Proof.
  revert st. induction indices as [|i rest IH]; intros [r pl]; cbn [place_vnodes].
  { by intros [= <-]. }
  destruct (place_vnode _ _ _ _) as [st1|] eqn:Hst; [|done].
  apply place_vnode_Some in Hst as (pos & _ & ->).
  intros (-> & -> & ->)%IH. done.
Qed.

Lemma remove_positions_config pos_list r :
  vnodes_per_node (remove_positions pos_list r).2 = vnodes_per_node r ∧
  hash_fn (remove_positions pos_list r).2 = hash_fn r ∧
  _positions_by_node (remove_positions pos_list r).2 = _positions_by_node r.
Proof.
  revert r. induction pos_list as [|pos rest IH]; intros r; [done|].
  cbn [remove_positions]. destruct (_ || _); [done|].
  destruct (IH (set_positions
                  (list_pop_at (bisect_left (_positions (set_vnode_at (delete pos (_vnode_at r)) r)) pos)
                               (_positions (set_vnode_at (delete pos (_vnode_at r)) r)))
                  (set_vnode_at (delete pos (_vnode_at r)) r))) as (-> & -> & ->).
  done.
Qed.

Lemma step_config r r' :
  step r r' → vnodes_per_node r' = vnodes_per_node r ∧ hash_fn r' = hash_fn r.
Proof.
  intros Hstep. destruct Hstep as [fuel node r res r' Hadd|id r res r' Hrem].
  - unfold add_node in Hadd. destruct (decide _); [by injection Hadd as _ <-|].
    destruct (place_vnodes _ _ _ _) as [[r1 pl]|] eqn:Hrun; [|done].
    injection Hadd as _ <-. by apply place_vnodes_config in Hrun as (? & ? & _).
  - unfold remove_node in Hrem.
    destruct (_positions_by_node r !! id) as [pl|]; [|by injection Hrem as _ <-].
    pose proof (remove_positions_config pl r) as (? & ? & _).
    destruct (remove_positions pl r) as [[e|[]] r1]; by injection Hrem as _ <-.
Qed.

Lemma rtc_step_config r r' :
  rtc step r r' → vnodes_per_node r' = vnodes_per_node r ∧ hash_fn r' = hash_fn r.
Proof.
  induction 1 as [|r r1 r2 Hstep _ [-> ->]]; [done|]. by apply step_config.
Qed.

(** ** The position index as the design document states it *)

Lemma ring_inv_position_index r : ring_inv r → position_index_invariant r.
Proof.
  intros [HK (Hs & Hdom & Hpl & Hv) Hlen]. split_and!.
  - done.
  - by apply StronglySorted_lt_NoDup.
  - intros p. by rewrite Hdom, elem_of_dom.
  - intros id i [pl Hid]%elem_of_dom Hi.
    destruct (lookup_lt_is_Some_2 pl (Z.to_nat i)) as [p Hp].
    { apply Hlen in Hid. lia. }
    exists p. split.
    + rewrite (Hpl _ _ _ _ Hid Hp). by rewrite Z2Nat.id by lia.
    + intros q (pl' & Hid' & _ & Hq)%Hv. simpl in *. congruence.
Qed.

Lemma positions_of_Permutation r id pl :
  ring_inv r → _positions_by_node r !! id = Some pl → positions_of r id ≡ₚ pl.
Proof.
  intros Hinv Hid. destruct (ring_inv_pos_list _ _ _ Hinv Hid) as [Hnd Hin].
  destruct Hinv as [_ (Hs & Hdom & Hpl & Hv) _].
  apply NoDup_Permutation; [|done|].
  - apply NoDup_filter. by apply StronglySorted_lt_NoDup.
  - intros p. unfold positions_of. rewrite list_elem_of_filter. split.
    + intros [Hown _]. destruct (_vnode_at r !! p) as [v|] eqn:Hp; [|done].
      injection Hown as <-. destruct (Hv _ _ Hp) as (pl' & Hid' & _ & Hi).
      rewrite Hid in Hid'. injection Hid' as <-.
      by eapply list_elem_of_lookup_2.
    + intros Hp. split; [|by apply Hin].
      apply list_elem_of_lookup_1 in Hp as [i Hi].
      by rewrite (Hpl _ _ _ _ Hid Hi).
Qed.

(** ** What [add_node] places and where *)

Lemma place_vnodes_spec n fuel node r pl r' pl' :
  place_vnodes fuel node (seqZ (Z.of_nat (length pl)) (Z.of_nat n)) (r, pl)
  = Some (r', pl') →
  ∃ new, pl' = pl ++ new ∧ length new = n ∧
    (∀ q, is_Some (_vnode_at r' !! q) ↔ is_Some (_vnode_at r !! q) ∨ q ∈ new) ∧
    (∀ q v, _vnode_at r !! q = Some v → _vnode_at r' !! q = Some v) ∧
    size (_vnode_at r') = (size (_vnode_at r) + n)%nat ∧
    length (_positions r') = (length (_positions r) + n)%nat ∧
    (∀ q, q ∈ _positions r' ↔ q ∈ _positions r ∨ q ∈ new) ∧
    (∀ k p, new !! k = Some p →
       _vnode_at r' !! p = Some (mkVNode node (Z.of_nat (length pl + k))) ∧
       first_free (hash_fn r) (_vnode_at r) node (length pl) new k p).
Proof.
  revert r pl. induction n as [|n IH]; intros r pl.
  { rewrite seqZ_nil by lia. intros [= <- <-]. exists [].
    split_and!; [by rewrite app_nil_r|done| |done|lia|lia| |done];
      intros q; rewrite elem_of_nil; tauto. }
  rewrite seqZ_cons by lia. cbn [place_vnodes].
  destruct (place_vnode _ _ _ _) as [st1|] eqn:Hst; [|done].
  apply place_vnode_Some in Hst as (pos & Hprobe & ->).
  apply (probe_Some _ _ _ _ 0%nat) in Hprobe as (a & _ & Ha & Hfree & Hocc).
  replace (Z.succ (Z.of_nat (length pl))) with (Z.of_nat (length (pl ++ [pos])))
    by (rewrite length_app; simpl; lia).
  replace (Z.pred (Z.of_nat (S n))) with (Z.of_nat n) by lia.
  intros (new & -> & Hlen & Hdom & Hkeep & Hsize & Hps & Hel & Hnew)%IH.
  simpl in Hdom, Hkeep, Hsize, Hps, Hel, Hnew.
  assert (∀ k q, occupied_at (<[pos:=mkVNode node (Z.of_nat (length pl))]> (_vnode_at r)) new k q
                 ↔ occupied_at (_vnode_at r) (pos :: new) (S k) q) as Hocc'.
  { intros k q. unfold occupied_at. simpl.
    rewrite lookup_insert_is_Some, elem_of_cons.
    destruct (decide (pos = q)); intuition congruence. }
  exists (pos :: new). split_and!.
  - by rewrite <-app_assoc.
  - simpl. lia.
  - intros q. rewrite Hdom, lookup_insert_is_Some, elem_of_cons.
    destruct (decide (pos = q)); intuition congruence.
  - intros q v Hq. apply Hkeep. rewrite lookup_insert_ne; [done|].
    intros ->. by rewrite Hfree in Hq.
  - rewrite Hsize, map_size_insert_None by done. lia.
  - rewrite Hps, length_list_insert_at. lia.
  - intros q. rewrite Hel, elem_of_list_insert_at, elem_of_cons. tauto.
  - intros [|k] p Hp; simpl in Hp.
    + injection Hp as <-. split.
      * rewrite Nat.add_0_r. apply Hkeep. by rewrite lookup_insert_eq.
      * exists a. rewrite Nat.add_0_r. split_and!; [done| |].
        -- intros [Hc|Hc]; [by rewrite Hfree in Hc; destruct Hc|].
           by apply elem_of_nil in Hc.
        -- intros b Hb. left. apply Hocc. lia.
    + destruct (Hnew k p Hp) as [Hv (a' & Hp' & Hnocc & Hprev)].
      rewrite length_app in Hv, Hp', Hprev. simpl in Hv, Hp', Hprev.
      replace (length pl + 1 + k)%nat with (length pl + S k)%nat in * by lia.
      split; [done|]. exists a'. split_and!; [done| |].
      * by rewrite <-Hocc'.
      * intros b Hb. rewrite <-Hocc'. by apply Hprev.
Qed.

Lemma place_vnodes_mono fuel fuel' node indices st st' :
  (fuel ≤ fuel')%nat →
  place_vnodes fuel node indices st = Some st' →
  place_vnodes fuel' node indices st = Some st'.
Proof.
  intros Hle. revert st. induction indices as [|i rest IH]; intros [r pl]; [done|].
  cbn [place_vnodes].
  destruct (place_vnode fuel _ _ _) as [st1|] eqn:Hst; [|done].
  apply place_vnode_Some in Hst as (pos & Hprobe & ->).
  apply (probe_mono _ _ _ fuel fuel' 0%nat _ Hle) in Hprobe.
  rewrite (place_vnode_probe _ _ _ _ _ _ Hprobe). apply IH.
Qed.

(** ** The collision policy in the words of the design document *)

Lemma string_app_assoc (s t u : string) : (s +:+ t) +:+ u = s +:+ (t +:+ u).
Proof.
  induction s as [|c s IH]; [done|].
  change (String c ((s +:+ t) +:+ u) = String c (s +:+ (t +:+ u))). by f_equal.
Qed.

(** The strings that the code builds with [vnode_key] and [retry_key] are
    the ones the design document spells out. *)
Lemma candidate_attempt_string hash v a :
  candidate hash (vnode_key v) a
  = hash (attempt_string (node_id (physical v)) (replica_index v) a).
Proof.
  destruct a as [|a]; [done|].
  unfold candidate, retry_key, vnode_key, attempt_string.
  by rewrite !string_app_assoc.
Qed.

Lemma first_free_policy hash va node new :
  (∀ k p, new !! k = Some p → first_free hash va node 0 new k p)
  ↔ placed_by_policy hash va (node_id node) new.
Proof.
  unfold first_free, placed_by_policy. cbn [Nat.add].
  split; intros Hpol k p Hk; destruct (Hpol k p Hk) as (a & Ha & Hfree & Hprev);
    exists a; split_and!; try done.
  - by rewrite Ha, candidate_attempt_string.
  - intros b Hb. rewrite <-(candidate_attempt_string hash (mkVNode node (Z.of_nat k))).
    by apply Hprev.
  - by rewrite Ha, (candidate_attempt_string hash (mkVNode node (Z.of_nat k))).
  - intros b Hb. rewrite (candidate_attempt_string hash (mkVNode node (Z.of_nat k))).
    by apply Hprev.
Qed.

(** The loop stops at the first free attempt as soon as the fuel reaches
    it. *)
Lemma probe_first hash (va : gmap Z VNode) key a fuel :
  va !! candidate hash key a = None →
  (∀ b, (b < a)%nat → is_Some (va !! candidate hash key b)) →
  (a ≤ fuel)%nat →
  probe fuel hash va key 0 (hash key) = Some (candidate hash key a).
Proof.
  intros Hfree Hprev Hfuel.
  destruct (probe_total hash va key fuel 0 a) as [pos Hprobe]; [lia|done|].
  change (probe fuel hash va key 0 (hash key) = Some pos) in Hprobe.
  rewrite Hprobe. f_equal.
  apply (probe_Some hash va key fuel 0%nat) in Hprobe as (a' & _ & -> & Hfree' & Hprev').
  destruct (decide (a' = a)) as [->|Hne]; [done|].
  destruct (decide (a' < a)%nat) as [Hlt|Hge].
  - destruct (Hprev a' Hlt) as [v Hv]. congruence.
  - destruct (Hprev' a ltac:(lia)) as [v Hv]. congruence.
Qed.

(** A list of positions that follows the policy is the one the loop over
    the replica indices produces. *)
Lemma place_vnodes_follow node new r pl :
  (∀ k p, new !! k = Some p →
     first_free (hash_fn r) (_vnode_at r) node (length pl) new k p) →
  ∃ fuel r',
    ∀ fuel', (fuel ≤ fuel')%nat →
      place_vnodes fuel' node (seqZ (Z.of_nat (length pl)) (Z.of_nat (length new))) (r, pl)
      = Some (r', pl ++ new).
Proof.
  revert r pl. induction new as [|p new IH]; intros r pl Hpol.
  { exists 0%nat, r. intros fuel' _. rewrite seqZ_nil by (simpl; lia).
    by rewrite app_nil_r. }
  destruct (Hpol 0%nat p eq_refl) as (a & Hp & Hfree & Hprev).
  rewrite Nat.add_0_r in Hp, Hprev.
  assert (_vnode_at r !! p = None) as Hnone.
  { apply eq_None_not_Some. intros Hocc. apply Hfree. by left. }
  assert (∀ b, (b < a)%nat →
            is_Some (_vnode_at r !! candidate (hash_fn r)
                       (vnode_key (mkVNode node (Z.of_nat (length pl)))) b)) as Hocc.
  { intros b Hb. destruct (Hprev b Hb) as [?|Hin]; [done|].
    by apply elem_of_nil in Hin. }
  destruct (IH (placed node (Z.of_nat (length pl)) p r) (pl ++ [p]))
    as (fuel & r' & Hrun).
  { intros k q Hk. destruct (Hpol (S k) q Hk) as (a' & Hq & Hfree' & Hprev').
    assert (∀ x, occupied_at (<[p:=mkVNode node (Z.of_nat (length pl))]> (_vnode_at r)) new k x
                 ↔ occupied_at (_vnode_at r) (p :: new) (S k) x) as Hocc'.
    { intros x. unfold occupied_at. simpl.
      rewrite lookup_insert_is_Some, elem_of_cons.
      destruct (decide (p = x)); intuition congruence. }
    exists a'. rewrite length_app. simpl.
    replace (length pl + 1 + k)%nat with (length pl + S k)%nat by lia.
    split_and!; [done| |].
    - by rewrite Hocc'.
    - intros b Hb. rewrite Hocc'. by apply Hprev'. }
  exists (a `max` fuel)%nat, r'. intros fuel' Hfuel.
  cbn [length]. rewrite seqZ_cons by lia. cbn [place_vnodes].
  rewrite (place_vnode_probe fuel' _ _ _ _ p); cycle 1.
  { rewrite Hp in Hnone |- *. apply probe_first; [done|done|lia]. }
  replace (Z.succ (Z.of_nat (length pl))) with (Z.of_nat (length (pl ++ [p])))
    by (rewrite length_app; simpl; lia).
  replace (Z.pred (Z.of_nat (S (length new)))) with (Z.of_nat (length new)) by lia.
  rewrite Hrun by lia. by rewrite <-app_assoc.
Qed.

(** ** The example rings *)

Lemma after_add_step id r :
  returns (add_node 4 (mkNode id) r) = true → step r (after_add id r).
Proof.
  unfold after_add, returns.
  destruct (add_node 4 (mkNode id) r) as [[[e|u] r']|] eqn:Hadd; [done| |done].
  intros _. by eapply step_add.
Qed.

Lemma after_add_eq id r :
  returns (add_node 4 (mkNode id) r) = true →
  add_node 4 (mkNode id) r = Some (inr (), after_add id r).
Proof.
  unfold after_add, returns.
  by destruct (add_node 4 (mkNode id) r) as [[[e|[]] r']|].
Qed.

Lemma ring_ab_added : add_node 4 (mkNode "node_25593") ring_a = Some (inr (), ring_ab).
Proof. apply after_add_eq. vm_compute. reflexivity. Qed.

Lemma ring_empty_init : HashRing_init 2 None = inr ring_empty.
Proof. reflexivity. Qed.

Lemma ring_a_reachable : reachable ring_a.
Proof.
  eapply reachable_step; [exact (reachable_init _ _ _ ring_empty_init)|].
  apply after_add_step. vm_compute. reflexivity.
Qed.

Lemma ring_ab_reachable : reachable ring_ab.
Proof.
  eapply reachable_step; [exact ring_a_reachable|].
  apply after_add_step. vm_compute. reflexivity.
Qed.

Example ring_a_positions :
  _positions ring_a = [488658250; 2001232501].
Proof. vm_compute. reflexivity. Qed.

Example ring_ab_positions :
  _positions ring_ab = [14607345; 488658250; 1667310604; 2001232501] ∧
  _positions_by_node ring_ab !! "node_25593" = Some [14607345; 1667310604].
Proof. split; vm_compute; reflexivity. Qed.

Example ring_ab_retry :
  HashFunction.hash32 "node_25593#vn1" = 488658250 ∧
  HashFunction.hash32 "node_25593#vn1@1" = 1667310604.
Proof. split; vm_compute; reflexivity. Qed.

(** ** Moved keys *)

Section moved_key_stats.
Context {F : Type} `{PyFloat F}.
Implicit Types (before after : gmap string string).

Lemma moved_count before after :
  length (filter (λ kv, after !! kv.1 ≠ Some kv.2) (map_to_list before))
  = size (moved_keys before after).
Proof.
  unfold moved_keys, size, set_size. simpl.
  rewrite <-(length_fmap fst). apply Permutation_length, NoDup_Permutation.
  - apply (sublist_NoDup _ (map_to_list before).*1);
      [apply NoDup_fst_map_to_list|apply fmap_sublist, sublist_filter].
  - apply NoDup_elements.
  - intros k. rewrite elem_of_elements, elem_of_filter, elem_of_dom, list_elem_of_fmap.
    split.
    + intros ([k' v] & -> & [Hne Hkv%elem_of_map_to_list]%list_elem_of_filter).
      simpl in *. rewrite Hkv. split; [congruence|by eexists].
    + intros [Hne [v Hv]]. exists (k, v). split; [done|].
      apply list_elem_of_filter. split; [simpl; congruence|].
      by apply elem_of_map_to_list.
Qed.

End moved_key_stats.

(** ** Per-node counts *)

Lemma sum_Z_Permutation l l' : l ≡ₚ l' → sum_Z l = sum_Z l'.
Proof. induction 1; simpl in *; lia. Qed.

Lemma length_filter_snd (id : string) (l : list (string * string)) :
  length (filter (λ kv, kv.2 = id) l) = length (filter (λ v, v = id) l.*2).
Proof.
  induction l as [|[k v] l IH]; [done|]. rewrite fmap_cons, !filter_cons. simpl.
  destruct (decide (v = id)); simpl; by rewrite IH.
Qed.

Lemma Counter_foldl_lookup (c : gmap string Z) (elems : list string) (id : string) :
  foldl (λ c elem, <[elem := default 0 (c !! elem) + 1]> c) c elems !! id =
  match c !! id with
  | Some x => Some (x + Z.of_nat (length (filter (λ v, v = id) elems)))
  | None => if decide (id ∈ elems)
            then Some (Z.of_nat (length (filter (λ v, v = id) elems)))
            else None
  end.
Proof.
  revert c. induction elems as [|v elems IH]; intros c.
  { cbn [foldl filter length]. destruct (c !! id); [f_equal; simpl; lia|].
    destruct (decide (id ∈ [])) as [Hin|]; [by apply elem_of_nil in Hin|done]. }
  cbn [foldl]. rewrite IH, filter_cons. destruct (decide (v = id)) as [->|Hne].
  - rewrite lookup_insert_eq. simpl length.
    destruct (c !! id); simpl.
    + f_equal. lia.
    + rewrite decide_True by (by left). f_equal. lia.
  - rewrite lookup_insert_ne by done. destruct (c !! id); [done|].
    destruct (decide (id ∈ elems)).
    + rewrite decide_True; [done|]. by right.
    + rewrite decide_False; [done|]. rewrite not_elem_of_cons. split; [congruence|done].
Qed.

Lemma Counter_lookup (elems : list string) (id : string) :
  Counter elems !! id =
  if decide (id ∈ elems) then Some (Z.of_nat (length (filter (λ v, v = id) elems)))
  else None.
Proof. unfold Counter. by rewrite Counter_foldl_lookup, lookup_empty. Qed.

Lemma Counter_foldl_sum (c : gmap string Z) (elems : list string) :
  sum_Z (map_to_list
           (foldl (λ c elem, <[elem := default 0 (c !! elem) + 1]> c) c elems)).*2
  = sum_Z (map_to_list c).*2 + Z.of_nat (length elems).
Proof.
  revert c. induction elems as [|v elems IH]; intros c; [simpl; lia|].
  cbn [foldl]. rewrite IH. simpl length.
  destruct (c !! v) as [x|] eqn:Hv; simpl.
  - rewrite <-(insert_delete_eq c v).
    rewrite (sum_Z_Permutation _ (x + 1 :: (map_to_list (delete v c)).*2)).
    + rewrite (sum_Z_Permutation (map_to_list c).*2 (x :: (map_to_list (delete v c)).*2)).
      * simpl. lia.
      * change (x :: (map_to_list (delete v c)).*2)
          with (((v, x) :: map_to_list (delete v c)).*2).
        apply fmap_Permutation. symmetry. by apply map_to_list_delete.
    + change (x + 1 :: (map_to_list (delete v c)).*2)
        with (((v, x + 1) :: map_to_list (delete v c)).*2).
      apply fmap_Permutation, map_to_list_insert, lookup_delete_eq.
  - rewrite (sum_Z_Permutation _ (0 + 1 :: (map_to_list c).*2)).
    + simpl. lia.
    + change (0 + 1 :: (map_to_list c).*2) with (((v, 0 + 1) :: map_to_list c).*2).
      by apply fmap_Permutation, map_to_list_insert.
Qed.

Lemma Counter_sum (elems : list string) :
  sum_Z (map_to_list (Counter elems)).*2 = Z.of_nat (length elems).
Proof. unfold Counter. by rewrite Counter_foldl_sum, map_to_list_empty. Qed.

Lemma load_Counter mapping id :
  id ∈ members mapping →
  Counter (map_to_list mapping).*2 !! id = Some (load mapping id).
Proof.
  intros (k & Hk)%elem_of_map_img. rewrite Counter_lookup, decide_True.
  - unfold load. by rewrite length_filter_snd.
  - apply list_elem_of_fmap. exists (k, id). split; [done|].
    by apply elem_of_map_to_list.
Qed.

Lemma dom_Counter mapping :
  dom (Counter (map_to_list mapping).*2) = members mapping.
Proof.
  apply set_eq. intros id. unfold members.
  rewrite elem_of_dom, Counter_lookup, elem_of_map_img.
  destruct (decide _) as [Hin|Hnin].
  - split; [intros _|by eexists].
    apply list_elem_of_fmap in Hin as ([k v] & -> & Hkv%elem_of_map_to_list).
    by exists k.
  - split; [by intros [??]|]. intros [k Hk]. destruct Hnin.
    apply list_elem_of_fmap. exists (k, id). split; [done|].
    by apply elem_of_map_to_list.
Qed.

(** The counts that [distribution_stats] works with are the loads of the
    members, in some order. *)
Lemma values_loads mapping :
  (map_to_list (Counter (map_to_list mapping).*2)).*2 ≡ₚ loads mapping.
Proof.
  unfold loads. rewrite <-dom_Counter.
  set (c := Counter (map_to_list mapping).*2).
  trans ((λ id, (id, load mapping id)) <$> elements (dom c)).*2; cycle 1.
  { rewrite <-list_fmap_compose. done. }
  apply fmap_Permutation, NoDup_Permutation.
  - apply NoDup_map_to_list.
  - apply NoDup_fmap_2; [by intros ?? [= ->]|apply NoDup_elements].
  - intros [id x]. rewrite elem_of_map_to_list, list_elem_of_fmap. split.
    + intros Hx. exists id. rewrite elem_of_elements.
      assert (id ∈ dom c) as Hid by (apply elem_of_dom; by eexists).
      split; [|done]. f_equal. unfold c in Hid. rewrite dom_Counter in Hid.
      apply load_Counter in Hid. fold c in Hid. congruence.
    + intros (id' & [= -> ->] & Hid%elem_of_elements).
      unfold c in Hid. rewrite dom_Counter in Hid. by apply load_Counter.
Qed.

(** ** Statistics of a list of counts *)

Lemma foldl_min_spec (x : Z) (rest : list Z) :
  foldl Z.min x rest ∈ x :: rest ∧ ∀ c, c ∈ x :: rest → foldl Z.min x rest ≤ c.
Proof.
  revert x. induction rest as [|y rest IH]; intros x; simpl.
  { split; [by left|]. intros c ->%list_elem_of_singleton. lia. }
  destruct (IH (Z.min x y)) as [Hin Hle]. split.
  - apply elem_of_cons in Hin as [->|Hin].
    + destruct (Z.min_spec x y) as [[_ ->]|[_ ->]]; [by left|by right; left].
    + by do 2 right.
  - intros c Hc.
    assert (foldl Z.min (x `min` y) rest ≤ x `min` y) by (apply Hle; by left).
    apply elem_of_cons in Hc as [->|[->|Hc]%elem_of_cons]; [lia|lia|].
    apply Hle. by right.
Qed.

Lemma foldl_max_spec (x : Z) (rest : list Z) :
  foldl Z.max x rest ∈ x :: rest ∧ ∀ c, c ∈ x :: rest → c ≤ foldl Z.max x rest.
Proof.
  revert x. induction rest as [|y rest IH]; intros x; simpl.
  { split; [by left|]. intros c ->%list_elem_of_singleton. lia. }
  destruct (IH (Z.max x y)) as [Hin Hle]. split.
  - apply elem_of_cons in Hin as [->|Hin].
    + destruct (Z.max_spec x y) as [[_ ->]|[_ ->]]; [by right; left|by left].
    + by do 2 right.
  - intros c Hc.
    assert (x `max` y ≤ foldl Z.max (x `max` y) rest) by (apply Hle; by left).
    apply elem_of_cons in Hc as [->|[->|Hc]%elem_of_cons]; [lia|lia|].
    apply Hle. by right.
Qed.

Lemma sum_sq_dev_Permutation mu l l' :
  l ≡ₚ l' → Qeq (statistics.sum_sq_dev mu l) (statistics.sum_sq_dev mu l').
Proof.
  induction 1 as [|x l l' _ IH|x y l|l1 l2 l3 _ IH1 _ IH2]; simpl.
  - reflexivity.
  - by apply Qplus_comp.
  - ring.
  - by etrans.
Qed.

Lemma mean_Permutation l l' : l ≡ₚ l' → statistics.mean l = statistics.mean l'.
Proof.
  intros Hperm. unfold statistics.mean.
  rewrite (sum_Z_Permutation _ _ Hperm), (Permutation_length Hperm).
  destruct l as [|x l].
  - apply Permutation_nil_l in Hperm. by subst.
  - destruct l' as [|x' l']; [by apply Permutation_nil_r in Hperm|done].
Qed.

Lemma pvariance_Permutation l l' :
  l ≡ₚ l' → statistics.pvariance l = statistics.pvariance l'.
Proof.
  intros Hperm. unfold statistics.pvariance.
  rewrite (sum_Z_Permutation _ _ Hperm), (Permutation_length Hperm).
  destruct l as [|x l].
  - apply Permutation_nil_l in Hperm. by subst.
  - destruct l' as [|x' l']; [by apply Permutation_nil_r in Hperm|].
    cbv zeta. f_equal. apply Qred_complete. unfold Qdiv.
    apply Qmult_comp; [|reflexivity]. by apply sum_sq_dev_Permutation.
Qed.

Lemma statistics_total {F : Type} `{PyFloat F} (values : list Z) :
  values ≠ [] →
  ∃ mean var lo hi,
    statistics.mean values = inr mean ∧
    statistics.pvariance values = inr var ∧
    statistics.pstdev values = inr (float_sqrt_Q var) ∧
    py_min values = inr lo ∧ py_max values = inr hi ∧
    mean = Qred (Qdiv (inject_Z (sum_Z values)) (inject_Z (Z.of_nat (length values)))) ∧
    lo ∈ values ∧ (∀ c, c ∈ values → lo ≤ c) ∧
    hi ∈ values ∧ (∀ c, c ∈ values → c ≤ hi).
Proof.
  intros Hne. destruct values as [|x rest]; [done|].
  unfold statistics.pstdev, statistics.pvariance, statistics.mean, py_min, py_max.
  do 4 eexists. split_and!; try done;
    apply foldl_min_spec || apply foldl_max_spec.
Qed.

(** ** The population variance *)

(** The variance that [statistics.pvariance] computes is the mean of the
    squared deviations from the arithmetic mean, in lowest terms. *)
Lemma sum_sq_dev_sum_Q mu l :
  Qeq (statistics.sum_sq_dev mu l) (sum_Q (squared_deviation mu <$> l)).
Proof.
  induction l as [|x l IH]; [reflexivity|].
  cbn [statistics.sum_sq_dev foldr fmap list_fmap sum_Q].
  change (foldr _ _ l) with (statistics.sum_sq_dev mu l).
  rewrite IH. unfold squared_deviation. simpl. reflexivity.
Qed.

Lemma pvariance_population l var :
  statistics.pvariance l = inr var → var = Qred (population_variance l).
Proof.
  unfold statistics.pvariance. destruct l as [|x l]; [done|]. cbv beta iota zeta.
  intros Hvar. apply (inj inr) in Hvar. rewrite <-Hvar. apply Qred_complete.
  unfold population_variance, arithmetic_mean. by rewrite sum_sq_dev_sum_Q.
Qed.

Lemma sum_Q_squared_deviation mu l :
  Qeq (sum_Q (squared_deviation mu <$> l))
      (Qplus (Qminus (inject_Z (sum_Z ((λ x, x * x) <$> l)))
                     (Qmult (Qmult (inject_Z 2) mu) (inject_Z (sum_Z l))))
             (Qmult (Qmult (inject_Z (Z.of_nat (length l))) mu) mu)).
Proof.
  induction l as [|x l IH].
  - simpl. ring.
  - cbn [fmap list_fmap sum_Q length]. rewrite IH. unfold squared_deviation.
    change (sum_Z ((x * x) :: ((λ x, x * x) <$> l)))
      with (x * x + sum_Z ((λ x, x * x) <$> l)).
    change (sum_Z (x :: l)) with (x + sum_Z l).
    rewrite Nat2Z.inj_succ. unfold Z.succ. rewrite !inject_Z_plus, !inject_Z_mult. ring.
Qed.

(** The same variance from the sum and the sum of the squares:
    [(n Σx² - (Σx)²) / n²]. *)
Lemma population_variance_closed_form l :
  l ≠ [] →
  let n := Z.of_nat (length l) in
  Qeq (population_variance l)
      (Qdiv (inject_Z (n * sum_Z ((λ x, x * x) <$> l) - sum_Z l * sum_Z l))
            (inject_Z (n * n))).
Proof.
  intros Hne n. unfold population_variance, arithmetic_mean.
  rewrite sum_Q_squared_deviation. fold n.
  assert (¬ Qeq (inject_Z n) 0) as Hn.
  { unfold Qeq. simpl. destruct l; [done|]. subst n. simpl. lia. }
  unfold Zminus. rewrite !inject_Z_plus, inject_Z_opp, !inject_Z_mult.
  field. done.
Qed.

(** * The claims of the design document *)

(** C1. On a ring with at least one virtual node, [get_node_for_key]
    hashes the key, picks the least occupied position at or after the hash,
    or the least occupied position of all when the hash lies beyond every
    one of them, and returns the physical node of the virtual node there.
    A hash that is itself an occupied position selects that position. *)
Theorem get_node_for_key_successor r key :
  reachable r → 0 < total_vnodes r →
  ∃ p vnode,
    successor_of (_positions r) (hash_fn r key) p ∧
    _vnode_at r !! p = Some vnode ∧
    get_node_for_key r key = inr (physical vnode) ∧
    (hash_fn r key ∈ _positions r → p = hash_fn r key).
Proof.
  intros Hinv%reachable_ring_inv Hne%total_vnodes_pos.
  destruct (get_node_for_key_spec r key Hinv Hne) as (p & vnode & Hsucc & Hv & Hget).
  exists p, vnode. split_and!; [done..|]. by apply successor_of_exact.
Qed.

Lemma get_node_for_key_successor_witness :
  ∃ p vnode,
    successor_of (_positions ring_ab) (hash_fn ring_ab "user:1") p ∧
    _vnode_at ring_ab !! p = Some vnode ∧
    get_node_for_key ring_ab "user:1" = inr (physical vnode) ∧
    (hash_fn ring_ab "user:1" ∈ _positions ring_ab → p = hash_fn ring_ab "user:1").
Proof.
  apply (get_node_for_key_successor ring_ab "user:1").
  - exact ring_ab_reachable.
  - vm_compute. reflexivity.
Defined.

(** C2. [get_node_for_key] raises the empty-ring error exactly when the
    ring has no virtual node; on a reachable ring with at least one virtual
    node every lookup returns a node, and that node is listed by
    [list_nodes]. *)
Theorem get_node_for_key_coverage r :
  reachable r →
  (∀ key, get_node_for_key r key = inl (ValueError "Ring is empty")
          ↔ total_vnodes r = 0) ∧
  (0 < total_vnodes r →
   ∀ key, ∃ n, get_node_for_key r key = inr n ∧ node_id n ∈ list_nodes r).
Proof.
  intros Hinv%reachable_ring_inv. split.
  - intros key. rewrite get_node_for_key_empty. unfold total_vnodes.
    destruct (_positions r); simpl; split; (done || lia).
  - intros Hne%total_vnodes_pos key.
    destruct (get_node_for_key_spec r key Hinv Hne) as (p & vnode & _ & _ & Hget).
    exists (physical vnode). split; [done|].
    apply elem_of_list_nodes. by eapply get_node_for_key_member.
Qed.

Lemma get_node_for_key_coverage_witness :
  (∀ key, get_node_for_key ring_ab key = inl (ValueError "Ring is empty")
          ↔ total_vnodes ring_ab = 0) ∧
  (∀ key, ∃ n, get_node_for_key ring_ab key = inr n ∧ node_id n ∈ list_nodes ring_ab).
Proof.
  destruct (get_node_for_key_coverage ring_ab ring_ab_reachable) as [Hempty Hcover].
  split; [exact Hempty|]. apply Hcover. vm_compute. reflexivity.
Defined.

(** C3. For a node whose identifier is not present, [add_node] never
    raises, and it returns exactly when each replica, in turn, has an
    attempt whose position is not occupied, where attempt 0 of replica [i]
    hashes ["<node_id>#vn<i>"] and attempt [a > 0] hashes
    ["<node_id>#vn<i>@<a>"]; the collision loop has no bound of its own, so
    without such an attempt the call does not return. A call that returns
    has placed exactly [vnodes_per_node] virtual nodes, replica [i] at the
    position of its first attempt that is not occupied: the position
    sequence and the mapping each grow by [vnodes_per_node] entries, what
    the ring held before stays, and the node is recorded with the list of
    its [vnodes_per_node] positions. *)
Theorem add_node_collision_policy r node :
  0 < vnodes_per_node r →
  _positions_by_node r !! node_id node = None →
  (∀ fuel r', add_node fuel node r = Some (inr (), r') →
     ∃ pos_list,
       _positions_by_node r' = <[node_id node := pos_list]> (_positions_by_node r) ∧
       Z.of_nat (length pos_list) = vnodes_per_node r ∧
       Z.of_nat (length (_positions r'))
       = Z.of_nat (length (_positions r)) + vnodes_per_node r ∧
       Z.of_nat (size (_vnode_at r'))
       = Z.of_nat (size (_vnode_at r)) + vnodes_per_node r ∧
       (∀ q, q ∈ _positions r' ↔ q ∈ _positions r ∨ q ∈ pos_list) ∧
       (∀ q v, _vnode_at r !! q = Some v → _vnode_at r' !! q = Some v) ∧
       (∀ k p, pos_list !! k = Some p →
          _vnode_at r' !! p = Some (mkVNode node (Z.of_nat k))) ∧
       placed_by_policy (hash_fn r) (_vnode_at r) (node_id node) pos_list) ∧
  (∀ pos_list,
     Z.of_nat (length pos_list) = vnodes_per_node r →
     placed_by_policy (hash_fn r) (_vnode_at r) (node_id node) pos_list →
     ∃ fuel r',
       (∀ fuel', (fuel ≤ fuel')%nat → add_node fuel' node r = Some (inr (), r')) ∧
       _positions_by_node r' = <[node_id node := pos_list]> (_positions_by_node r)) ∧
  ((¬ ∃ pos_list,
        Z.of_nat (length pos_list) = vnodes_per_node r ∧
        placed_by_policy (hash_fn r) (_vnode_at r) (node_id node) pos_list) →
   ∀ fuel, add_node fuel node r = None) ∧
  (∀ fuel e r', add_node fuel node r ≠ Some (inl e, r')).
Proof.
  intros HK Hnew.
  assert (∀ fuel,
            add_node fuel node r
            = match place_vnodes fuel node
                      (seqZ (Z.of_nat (length (@nil Z)))
                            (Z.of_nat (Z.to_nat (vnodes_per_node r)))) (r, []) with
              | None => None
              | Some (r1, pl) =>
                  Some (inr (), set_positions_by_node
                                  (<[node_id node := pl]> (_positions_by_node r1)) r1)
              end) as Hadd.
  { intros fuel. unfold add_node.
    rewrite decide_False by (rewrite Hnew; by intros [??]).
    simpl. by rewrite Z2Nat.id by lia. }
  assert (∀ fuel r', add_node fuel node r = Some (inr (), r') →
     ∃ pos_list,
       _positions_by_node r' = <[node_id node := pos_list]> (_positions_by_node r) ∧
       Z.of_nat (length pos_list) = vnodes_per_node r ∧
       Z.of_nat (length (_positions r'))
       = Z.of_nat (length (_positions r)) + vnodes_per_node r ∧
       Z.of_nat (size (_vnode_at r'))
       = Z.of_nat (size (_vnode_at r)) + vnodes_per_node r ∧
       (∀ q, q ∈ _positions r' ↔ q ∈ _positions r ∨ q ∈ pos_list) ∧
       (∀ q v, _vnode_at r !! q = Some v → _vnode_at r' !! q = Some v) ∧
       (∀ k p, pos_list !! k = Some p →
          _vnode_at r' !! p = Some (mkVNode node (Z.of_nat k))) ∧
       placed_by_policy (hash_fn r) (_vnode_at r) (node_id node) pos_list) as Hret.
  { intros fuel r'. rewrite Hadd.
    destruct (place_vnodes _ _ _ _) as [[r1 pl]|] eqn:Hrun; [|done].
    intros [= <-].
    pose proof (place_vnodes_config _ _ _ _ _ Hrun) as (_ & _ & Hpbn).
    apply place_vnodes_spec in Hrun
      as (new & -> & Hlen & _ & Hkeep & Hsize & Hps & Hel & Hplaced).
    simpl in *. exists new. rewrite Hpbn. split_and!; [done|lia|lia|lia|done|done| |].
    - intros k p Hk. by destruct (Hplaced k p Hk).
    - apply first_free_policy. intros k p Hk. by destruct (Hplaced k p Hk). }
  split_and!.
  - exact Hret.
  - intros pos_list Hlen Hpol'.
    pose proof (proj2 (first_free_policy _ _ node pos_list) Hpol') as Hpol.
    destruct (place_vnodes_follow node pos_list r [] Hpol) as (fuel & r1 & Hrun).
    pose proof (place_vnodes_config _ _ _ _ _ (Hrun fuel ltac:(lia))) as (_ & _ & Hpbn).
    simpl in Hpbn.
    exists fuel, (set_positions_by_node
                    (<[node_id node := pos_list]> (_positions_by_node r1)) r1).
    split; [|simpl; by rewrite Hpbn].
    intros fuel' Hfuel. rewrite Hadd.
    replace (Z.of_nat (Z.to_nat (vnodes_per_node r))) with (Z.of_nat (length pos_list))
      by lia.
    by rewrite (Hrun fuel' Hfuel).
  - intros Hnone fuel.
    destruct (add_node fuel node r) as [[[e|[]] r']|] eqn:Hrun; [| |done].
    + rewrite Hadd in Hrun. by destruct (place_vnodes _ _ _ _) as [[??]|].
    + destruct Hnone. destruct (Hret fuel r' Hrun) as (pos_list & _ & Hlen & Hrest).
      exists pos_list. split; [done|]. apply Hrest.
  - intros fuel e r'. rewrite Hadd. by destruct (place_vnodes _ _ _ _) as [[??]|].
Qed.

Lemma add_node_collision_policy_witness :
  let r := ring_a in
  let node := mkNode "node_25593" in
  (∀ fuel r', add_node fuel node r = Some (inr (), r') →
     ∃ pos_list,
       _positions_by_node r' = <[node_id node := pos_list]> (_positions_by_node r) ∧
       Z.of_nat (length pos_list) = vnodes_per_node r ∧
       Z.of_nat (length (_positions r'))
       = Z.of_nat (length (_positions r)) + vnodes_per_node r ∧
       Z.of_nat (size (_vnode_at r'))
       = Z.of_nat (size (_vnode_at r)) + vnodes_per_node r ∧
       (∀ q, q ∈ _positions r' ↔ q ∈ _positions r ∨ q ∈ pos_list) ∧
       (∀ q v, _vnode_at r !! q = Some v → _vnode_at r' !! q = Some v) ∧
       (∀ k p, pos_list !! k = Some p →
          _vnode_at r' !! p = Some (mkVNode node (Z.of_nat k))) ∧
       placed_by_policy (hash_fn r) (_vnode_at r) (node_id node) pos_list) ∧
  (∀ pos_list,
     Z.of_nat (length pos_list) = vnodes_per_node r →
     placed_by_policy (hash_fn r) (_vnode_at r) (node_id node) pos_list →
     ∃ fuel r',
       (∀ fuel', (fuel ≤ fuel')%nat → add_node fuel' node r = Some (inr (), r')) ∧
       _positions_by_node r' = <[node_id node := pos_list]> (_positions_by_node r)) ∧
  ((¬ ∃ pos_list,
        Z.of_nat (length pos_list) = vnodes_per_node r ∧
        placed_by_policy (hash_fn r) (_vnode_at r) (node_id node) pos_list) →
   ∀ fuel, add_node fuel node r = None) ∧
  (∀ fuel e r', add_node fuel node r ≠ Some (inl e, r')).
Proof.
  intros r node. apply (add_node_collision_policy ring_a (mkNode "node_25593")).
  - reflexivity.
  - vm_compute. reflexivity.
Defined.

(** The keys hashed for a virtual node, and a placement that needed a
    second attempt. *)
Example vnode_key_format :
  vnode_key (mkVNode (mkNode "node_25593") 1) = "node_25593#vn1" ∧
  retry_key (vnode_key (mkVNode (mkNode "node_25593") 1)) 2 = "node_25593#vn1@2" ∧
  attempt_string "node_25593" 1 0 = "node_25593#vn1" ∧
  attempt_string "node_25593" 1 2 = "node_25593#vn1@2" ∧
  attempt_string "n" 10 12 = "n#vn10@12".
Proof. split_and!; vm_compute; reflexivity. Qed.

(** On the ring that holds ["node_12008"], the policy puts replica 0 of
    ["node_25593"] at the hash of ["node_25593#vn0"] and, that of
    ["node_25593#vn1"] being taken, replica 1 at the hash of
    ["node_25593#vn1@1"]; this is the list the call records. *)
Example ring_ab_policy :
  HashFunction.hash32 "node_25593#vn0" = 14607345 ∧
  HashFunction.hash32 "node_25593#vn1" = 488658250 ∧
  HashFunction.hash32 "node_25593#vn1@1" = 1667310604 ∧
  placed_by_policy (hash_fn ring_a) (_vnode_at ring_a) "node_25593"
                   [14607345; 1667310604] ∧
  add_node 4 (mkNode "node_25593") ring_a = Some (inr (), ring_ab) ∧
  _positions_by_node ring_ab !! "node_25593" = Some [14607345; 1667310604].
Proof.
  split_and!; [vm_compute; reflexivity..| | |vm_compute; reflexivity].
  - intros [|[|k]] p Hk; simpl in Hk; [| |done]; injection Hk as <-.
    + exists 0%nat. split_and!; [vm_compute; reflexivity| |intros b Hb; lia].
      intros [[v Hv]|Hin]; [vm_compute in Hv; discriminate|].
      by apply elem_of_nil in Hin.
    + exists 1%nat. split_and!; [vm_compute; reflexivity| |].
      * intros [[v Hv]|Hin]; [vm_compute in Hv; discriminate|].
        apply list_elem_of_singleton in Hin. discriminate.
      * intros b Hb. assert (b = 0%nat) as -> by lia.
        left. exists (mkVNode (mkNode "node_12008") 1). vm_compute. reflexivity.
  - exact ring_ab_added.
Qed.

Example ring_ab_collision :
  _vnode_at ring_a !! 488658250 = Some (mkVNode (mkNode "node_12008") 1) ∧
  candidate (hash_fn ring_a) "node_25593#vn1" 0 = 488658250 ∧
  candidate (hash_fn ring_a) "node_25593#vn1" 1 = 1667310604 ∧
  _vnode_at ring_ab !! 488658250 = Some (mkVNode (mkNode "node_12008") 1) ∧
  _vnode_at ring_ab !! 1667310604 = Some (mkVNode (mkNode "node_25593") 1).
Proof. split_and!; vm_compute; reflexivity. Qed.

(** C4. Every reachable ring satisfies the position-index invariant: the
    position sequence is strictly ascending without duplicates, it lists
    exactly the keys of the position-to-virtual-node mapping, and each
    virtual node of each member occupies exactly one position; the ring
    left by a further [add_node] or [remove_node] satisfies it again. *)
Theorem position_index_invariant_reachable r :
  reachable r →
  position_index_invariant r ∧
  ∀ r', step r r' → position_index_invariant r'.
Proof.
  intros Hinv%reachable_ring_inv. split.
  - by apply ring_inv_position_index.
  - intros r' Hstep. by eapply ring_inv_position_index, step_ring_inv.
Qed.

Lemma position_index_invariant_reachable_witness :
  position_index_invariant ring_a ∧
  ∀ r', step ring_a r' → position_index_invariant r'.
Proof. apply (position_index_invariant_reachable ring_a). exact ring_a_reachable. Defined.

(** C5. Removing a member [X] of a reachable ring returns; afterwards
    [list_nodes] no longer lists [X], [total_vnodes] is smaller by the
    number of positions [X] occupied, which is [vnodes_per_node], and no
    lookup returns [X]. *)
Theorem remove_node_clean r X :
  reachable r → X ∈ list_nodes r →
  ∃ r', remove_node X r = (inr (), r') ∧
    (X ∉ list_nodes r') ∧
    total_vnodes r' = total_vnodes r - Z.of_nat (length (positions_of r X)) ∧
    Z.of_nat (length (positions_of r X)) = vnodes_per_node r ∧
    positions_of r' X = [] ∧
    ∀ key n, get_node_for_key r' key = inr n → node_id n ≠ X.
Proof.
  intros Hinv%reachable_ring_inv [pl Hid]%elem_of_list_nodes.
  destruct (remove_node_member r X pl Hinv Hid)
    as (r' & Hrun & Hinv' & _ & _ & Hpbn & Hel & Hlen & Hva).
  pose proof (positions_of_Permutation r X pl Hinv Hid) as Hperm.
  exists r'. split_and!.
  - done.
  - rewrite elem_of_list_nodes, Hpbn, lookup_delete_eq. by intros [??].
  - unfold total_vnodes. rewrite Hperm. lia.
  - rewrite Hperm. by apply (inv_length r Hinv X).
  - unfold positions_of. apply elem_of_nil_inv.
    intros p [Hown _]%list_elem_of_filter.
    destruct (_vnode_at r' !! p) as [v|] eqn:Hv; [|done].
    injection Hown as Hown.
    destruct Hinv' as [_ (_ & _ & _ & Hv') _].
    destruct (Hv' _ _ Hv) as (pl' & Hl & _). simpl in *.
    by rewrite Hown, Hpbn, lookup_delete_eq in Hl.
  - intros key n Hget Heq.
    destruct (get_node_for_key_member r' key n Hinv' Hget) as [pl' Hl].
    by rewrite Heq, Hpbn, lookup_delete_eq in Hl.
Qed.

Lemma remove_node_clean_witness :
  ∃ r', remove_node "node_12008" ring_ab = (inr (), r') ∧
    ("node_12008" ∉ list_nodes r') ∧
    total_vnodes r' = total_vnodes ring_ab
                      - Z.of_nat (length (positions_of ring_ab "node_12008")) ∧
    Z.of_nat (length (positions_of ring_ab "node_12008")) = vnodes_per_node ring_ab ∧
    positions_of r' "node_12008" = [] ∧
    ∀ key n, get_node_for_key r' key = inr n → node_id n ≠ "node_12008".
Proof.
  apply (remove_node_clean ring_ab "node_12008").
  - exact ring_ab_reachable.
  - vm_compute. left.
Defined.

(** C6. [add_node] with an identifier that is already present raises the
    duplicate-node error and [remove_node] with an identifier that is not
    present raises the node-not-found error; either leaves every field of
    the ring as it was. *)
Theorem user_errors_leave_ring_unchanged r :
  (∀ fuel node,
     is_Some (_positions_by_node r !! node_id node) →
     add_node fuel node r
     = Some (inl (ValueError ("Node " +:+ node_id node +:+ " already exists in ring")),
             r)) ∧
  (∀ id,
     _positions_by_node r !! id = None →
     remove_node id r
     = (inl (ValueError ("Node " +:+ id +:+ " not found in ring")), r)).
Proof.
  split.
  - intros fuel node Hdup. unfold add_node. by rewrite decide_True.
  - intros id Hmiss. unfold remove_node. by rewrite Hmiss.
Qed.

Lemma user_errors_leave_ring_unchanged_witness :
  add_node 0 (mkNode "node_12008") ring_ab
  = Some (inl (ValueError "Node node_12008 already exists in ring"), ring_ab) ∧
  remove_node "node_7" ring_ab
  = (inl (ValueError "Node node_7 not found in ring"), ring_ab).
Proof.
  destruct (user_errors_leave_ring_unchanged ring_ab) as [Hadd Hremove]. split.
  - apply (Hadd 0%nat (mkNode "node_12008")). vm_compute. eexists. reflexivity.
  - apply (Hremove "node_7"). vm_compute. reflexivity.
Defined.

(** C7. [moved_key_stats] raises the key-set error exactly when the two
    mappings have different key sets; otherwise it returns the number of
    keys whose node differs, the number of keys, and the former over the
    latter times one hundred (zero for two empty mappings). *)
Theorem moved_key_stats_spec {F : Type} `{PyFloat F} (before after : gmap string string) :
  (Rebalancer.moved_key_stats before after
   = inl (ValueError "Key sets differ; cannot compare movement")
   ↔ dom before ≠ dom after) ∧
  (dom before = dom after →
   let moved := Z.of_nat (size (moved_keys before after)) in
   let total := Z.of_nat (size (dom before)) in
   ∃ pct : F,
     Rebalancer.moved_key_stats before after = inr (moved, total, pct) ∧
     (0 < total →
      pct = float_mul (float_of_Q (Qdiv (inject_Z moved) (inject_Z total)))
                      (float_of_Z 100)) ∧
     (total = 0 → moved = 0 ∧ pct = float_of_Z 0)).
Proof.
  unfold Rebalancer.moved_key_stats. split.
  - destruct (decide (dom before ≠ dom after)); [done|]. split; [done|]. tauto.
  - intros Heq. destruct (decide (dom before ≠ dom after)) as [Hne|_]; [by destruct Hne|].
    rewrite moved_count, size_dom. cbv zeta.
    eexists. split; [done|]. split.
    + intros Hpos. by rewrite decide_True by lia.
    + intros Hzero. rewrite decide_False by lia. split; [|done].
      assert (size before = 0%nat) as Hempty by lia.
      apply map_size_empty_inv in Hempty. subst before. unfold moved_keys. rewrite dom_empty_L.
      match goal with
      | |- Z.of_nat (size ?X) = 0 => assert (X = ∅) as -> by set_solver
      end.
      done.
Qed.

Lemma moved_key_stats_spec_witness :
  let before := mapping_of ring_a sample_keys in
  let after := mapping_of ring_ab sample_keys in
  let moved := Z.of_nat (size (moved_keys before after)) in
  let total := Z.of_nat (size (dom before)) in
  ∃ pct : exact,
    Rebalancer.moved_key_stats before after = inr (moved, total, pct) ∧
    (0 < total →
     pct = float_mul (float_of_Q (Qdiv (inject_Z moved) (inject_Z total)))
                     (float_of_Z 100)) ∧
    (total = 0 → moved = 0 ∧ pct = float_of_Z 0).
Proof.
  apply (moved_key_stats_spec (F := exact)
           (mapping_of ring_a sample_keys) (mapping_of ring_ab sample_keys)).
  vm_compute. reflexivity.
Defined.

Example moved_key_stats_sample :
  Rebalancer.moved_key_stats (mapping_of ring_a sample_keys)
                             (mapping_of ring_ab sample_keys)
  = inr (3, 4, Rational 75) ∧
  Rebalancer.moved_key_stats (mapping_of ring_a sample_keys)
                             (mapping_of ring_ab ["user:1"])
  = inl (ValueError "Key sets differ; cannot compare movement")
      (B := Z * Z * exact).
Proof. split; vm_compute; reflexivity. Qed.

(** C8. The constructor raises the configuration error for a
    [vnodes_per_node] that is not positive; for a positive one it returns
    an empty ring whose [vnodes_per_node] is that value, and no sequence of
    [add_node] and [remove_node] calls changes it. *)
Theorem HashRing_init_configuration K h :
  (K ≤ 0 → HashRing_init K h = inl (ValueError "vnodes_per_node must be > 0")) ∧
  (0 < K →
   ∃ r, HashRing_init K h = inr r ∧
        _positions r = [] ∧ _vnode_at r = ∅ ∧ _positions_by_node r = ∅ ∧
        total_vnodes r = 0 ∧ list_nodes r = [] ∧
        vnodes_per_node r = K ∧
        ∀ r', rtc step r r' → vnodes_per_node r' = K).
Proof.
  unfold HashRing_init. split; intros HK.
  - by rewrite decide_True.
  - rewrite decide_False by lia. eexists. split; [done|]. simpl.
    split_and!; [done..|].
    intros r' Hsteps. by apply rtc_step_config in Hsteps as [-> _].
Qed.

Lemma HashRing_init_configuration_witness :
  HashRing_init (-3) None = inl (ValueError "vnodes_per_node must be > 0") ∧
  ∃ r, HashRing_init 2 None = inr r ∧
       _positions r = [] ∧ _vnode_at r = ∅ ∧ _positions_by_node r = ∅ ∧
       total_vnodes r = 0 ∧ list_nodes r = [] ∧
       vnodes_per_node r = 2 ∧
       ∀ r', rtc step r r' → vnodes_per_node r' = 2.
Proof.
  split.
  - apply (HashRing_init_configuration (-3) None). lia.
  - apply (HashRing_init_configuration 2 None). lia.
Defined.

(** C9. [distribution_stats] returns for every mapping. It counts the keys
    of each node the mapping sends keys to, and reports the number of such
    nodes, the number of keys, and the mean, population variance,
    population standard deviation, minimum and maximum of these counts;
    for the empty mapping every entry is zero. *)
Theorem distribution_stats_spec {F : Type} `{PyFloat F} (mapping : gmap string string) :
  ∃ s : Stats.t F,
    Rebalancer.distribution_stats mapping = inr s ∧
    (mapping = ∅ →
     s = Stats.mk (float_of_Z 0) (float_of_Z 0) (float_of_Z 0) (float_of_Z 0)
                  (float_of_Z 0) (float_of_Z 0) (float_of_Z 0)) ∧
    (mapping ≠ ∅ →
     ∃ mean var lo hi,
       statistics.mean (loads mapping) = inr mean ∧
       statistics.pvariance (loads mapping) = inr var ∧
       mean = Qred (Qdiv (inject_Z (Z.of_nat (size mapping)))
                         (inject_Z (Z.of_nat (size (members mapping))))) ∧
       var = Qred (population_variance (loads mapping)) ∧
       Qeq var
           (Qdiv (inject_Z (Z.of_nat (size (members mapping))
                            * sum_Z ((λ c, c * c) <$> loads mapping)
                            - Z.of_nat (size mapping) * Z.of_nat (size mapping)))
                 (inject_Z (Z.of_nat (size (members mapping))
                            * Z.of_nat (size (members mapping))))) ∧
       lo ∈ loads mapping ∧ (∀ c, c ∈ loads mapping → lo ≤ c) ∧
       hi ∈ loads mapping ∧ (∀ c, c ∈ loads mapping → c ≤ hi) ∧
       s = Stats.mk (float_of_Z (Z.of_nat (size (members mapping))))
                    (float_of_Z (Z.of_nat (size mapping)))
                    (float_of_Q mean) (float_of_Q var) (float_sqrt_Q var)
                    (float_of_Z lo) (float_of_Z hi)).
Proof.
  unfold Rebalancer.distribution_stats.
  pose proof (values_loads mapping) as Hperm.
  pose proof (Counter_sum (map_to_list mapping).*2) as Hsum.
  rewrite length_fmap, length_map_to_list in Hsum.
  assert (length (map_to_list (Counter (map_to_list mapping).*2)).*2
          = size (members mapping)) as Hlen.
  { rewrite (Permutation_length Hperm). unfold loads. by rewrite length_fmap. }
  revert Hperm Hsum Hlen.
  generalize ((map_to_list (Counter (map_to_list mapping).*2)).*2) as values.
  intros values Hperm Hsum Hlen.
  destruct (decide (values = [])) as [->|Hne].
  - eexists. split; [done|]. split; [done|]. intros Hm. destruct Hm.
    apply map_size_empty_inv. simpl in Hsum. lia.
  - destruct (statistics_total values Hne)
      as (mean & var & lo & hi & Hmean & Hvar & Hstd & Hlo & Hhi & Hmu
          & Hlo1 & Hlo2 & Hhi1 & Hhi2).
    rewrite Hmean, Hvar, Hstd, Hlo, Hhi.
    destruct values as [|v0 vs] eqn:Hv; [done|]. rewrite <-Hv in *.
    eexists. split; [done|]. split.
    + intros ->. rewrite map_size_empty in Hsum.
      rewrite Hv in Hsum. rewrite Hv in Hperm.
      unfold loads, members in Hperm. rewrite map_img_empty_L, elements_empty in Hperm.
      by apply Permutation_nil_r in Hperm.
    + intros _. exists mean, var, lo, hi.
      assert (statistics.pvariance (loads mapping) = inr var) as Hvar'
        by (by rewrite <-(pvariance_Permutation _ _ Hperm)).
      assert (Z.of_nat (length (loads mapping)) = Z.of_nat (size (members mapping)))
        as Hlen' by (by rewrite <-(Permutation_length Hperm), Hlen).
      assert (sum_Z (loads mapping) = Z.of_nat (size mapping)) as Hsum'
        by (by rewrite <-(sum_Z_Permutation _ _ Hperm)).
      assert (loads mapping ≠ []) as Hne'.
      { intros Hnil. rewrite Hnil in Hperm. by apply Permutation_nil_r in Hperm. }
      rewrite <-(mean_Permutation _ _ Hperm).
      rewrite Hsum, Hlen in Hmu. rewrite Hsum, Hlen.
      split_and!; [done|done|done| | | | | | |done].
      * by apply pvariance_population.
      * rewrite (pvariance_population _ _ Hvar'), Qred_correct.
        rewrite (population_variance_closed_form _ Hne'). cbv zeta.
        by rewrite Hlen', Hsum'.
      * by rewrite <-Hperm.
      * intros c. rewrite <-Hperm. apply Hlo2.
      * by rewrite <-Hperm.
      * intros c. rewrite <-Hperm. apply Hhi2.
Qed.

Lemma distribution_stats_spec_witness :
  let mapping := mapping_of ring_ab sample_keys in
  ∃ s : Stats.t exact,
    Rebalancer.distribution_stats mapping = inr s ∧
    ∃ mean var lo hi,
      statistics.mean (loads mapping) = inr mean ∧
      statistics.pvariance (loads mapping) = inr var ∧
      mean = Qred (Qdiv (inject_Z (Z.of_nat (size mapping)))
                        (inject_Z (Z.of_nat (size (members mapping))))) ∧
      var = Qred (population_variance (loads mapping)) ∧
      Qeq var
          (Qdiv (inject_Z (Z.of_nat (size (members mapping))
                           * sum_Z ((λ c, c * c) <$> loads mapping)
                           - Z.of_nat (size mapping) * Z.of_nat (size mapping)))
                (inject_Z (Z.of_nat (size (members mapping))
                           * Z.of_nat (size (members mapping))))) ∧
      lo ∈ loads mapping ∧ (∀ c, c ∈ loads mapping → lo ≤ c) ∧
      hi ∈ loads mapping ∧ (∀ c, c ∈ loads mapping → c ≤ hi) ∧
      s = Stats.mk (float_of_Z (Z.of_nat (size (members mapping))))
                   (float_of_Z (Z.of_nat (size mapping)))
                   (float_of_Q mean) (float_of_Q var) (float_sqrt_Q var)
                   (float_of_Z lo) (float_of_Z hi).
Proof.
  intros mapping.
  destruct (distribution_stats_spec (F := exact) mapping) as (s & Hs & _ & Hstats).
  exists s. split; [exact Hs|]. apply Hstats.
  intros Hempty. apply (f_equal size) in Hempty. vm_compute in Hempty. discriminate.
Defined.

Example distribution_stats_sample :
  Rebalancer.distribution_stats (F := exact) (mapping_of ring_ab sample_keys)
  = inr (Stats.mk (Rational 2) (Rational 4) (Rational 2) (Rational 1)
                  (SqrtOf 1) (Rational 1) (Rational 3)) ∧
  Rebalancer.distribution_stats (F := exact) ∅
  = inr (Stats.mk (Rational 0) (Rational 0) (Rational 0) (Rational 0)
                  (Rational 0) (Rational 0) (Rational 0)).
Proof. split_and!; vm_compute; reflexivity. Qed.

(** C10. In a reachable ring every position recorded for a node is in the
    position sequence, and [remove_node] never raises the ring-corruption
    error: on a member it returns. *)
Theorem remove_node_never_corrupt r :
  reachable r →
  (∀ id pl p, _positions_by_node r !! id = Some pl → p ∈ pl → p ∈ _positions r) ∧
  (∀ id msg, (remove_node id r).1 ≠ inl (RuntimeError msg)) ∧
  (∀ id, is_Some (_positions_by_node r !! id) →
         ∃ r', remove_node id r = (inr (), r')).
Proof.
  intros Hinv%reachable_ring_inv. split_and!.
  - intros id pl p Hid. by apply (ring_inv_pos_list r id pl Hinv Hid).
  - intros id msg. destruct (_positions_by_node r !! id) as [pl|] eqn:Hid.
    + by destruct (remove_node_member r id pl Hinv Hid) as (r' & -> & _).
    + unfold remove_node. by rewrite Hid.
  - intros id [pl Hid].
    destruct (remove_node_member r id pl Hinv Hid) as (r' & -> & _). by exists r'.
Qed.

Lemma remove_node_never_corrupt_witness :
  (∀ id pl p, _positions_by_node ring_ab !! id = Some pl → p ∈ pl →
              p ∈ _positions ring_ab) ∧
  (∀ id msg, (remove_node id ring_ab).1 ≠ inl (RuntimeError msg)) ∧
  (∀ id, is_Some (_positions_by_node ring_ab !! id) →
         ∃ r', remove_node id ring_ab = (inr (), r')).
Proof. apply (remove_node_never_corrupt ring_ab). exact ring_ab_reachable. Defined.

(** * The limits of the guarantees *)

(** The collision loop has no bound of its own: with a hash function that
    sends every key to the same position, the second virtual node of a node
    never finds a free position, whatever the fuel. *)
Lemma probe_constant_hash fuel (va : gmap Z VNode) key attempt :
  is_Some (va !! 0) → probe fuel (λ _, 0) va key attempt 0 = None.
Proof.
  intros Hocc. revert attempt. induction fuel as [|f IH]; intros attempt; simpl.
  - by rewrite decide_True.
  - rewrite decide_True by done. apply IH.
Qed.

Example add_node_constant_hash_never_returns fuel :
  add_node fuel (mkNode "A") (mkHashRing 2 (λ _, 0) [] ∅ ∅) = None.
Proof.
  unfold add_node. cbn [vnodes_per_node _positions_by_node node_id].
  rewrite lookup_empty, decide_False by (by intros [??]).
  change (seqZ 0 2) with [0; 1]. cbn [place_vnodes].
  rewrite (place_vnode_probe fuel _ 0 _ _ 0); cycle 1.
  { cbn [hash_fn _vnode_at].
    destruct fuel; simpl; by rewrite lookup_empty, decide_False by (by intros [??]). }
  unfold place_vnode, placed. cbn [hash_fn _vnode_at].
  rewrite probe_constant_hash; [done|]. rewrite lookup_insert_eq. by eexists.
Qed.

(** C3, as the design document words it, promises [vnodes_per_node]
    placements for every ring and every node that is not present. The ring
    that the constructor builds for two virtual nodes per node and a hash
    function that sends every string to 0 does not hold ["A"], and
    [add_node] returns on it for no amount of fuel: replica 0 takes
    position 0, and every attempt of replica 1 meets it. *)
Lemma add_node_collision_loop_unbounded :
  HashRing_init 2 (Some (λ _, 0)) = inr ring_constant_hash ∧
  0 < vnodes_per_node ring_constant_hash ∧
  _positions_by_node ring_constant_hash !! node_id (mkNode "A") = None ∧
  ¬ ∃ fuel r', add_node fuel (mkNode "A") ring_constant_hash = Some (inr (), r').
Proof.
  split_and!; [reflexivity..|].
  intros (fuel & r' & Hadd).
  pose proof (add_node_constant_hash_never_returns fuel) as Hnone.
  unfold ring_constant_hash in Hadd. congruence.
Qed.

(** The ring-corruption branch is live code: on a ring whose node list
    names a position that the position sequence lacks, which no sequence of
    calls produces, [remove_node] raises it and leaves the mapping changed. *)
Example remove_node_corrupt_ring :
  let r := mkHashRing 1 (λ _, 0) [] {[ 5 := mkVNode (mkNode "A") 0 ]} {[ "A" := [5] ]} in
  (remove_node "A" r).1
  = inl (RuntimeError "Ring corruption: position missing from sorted index") ∧
  _vnode_at (remove_node "A" r).2 = ∅ ∧
  _positions_by_node (remove_node "A" r).2 = {[ "A" := [5] ]}.
Proof. split_and!; vm_compute; reflexivity. Qed.

(** * Further properties of the code *)

(** ** The hash function *)

Lemma w32_range x : 0 ≤ HashFunction.w32 x < 2 ^ 32.
Proof.
  unfold HashFunction.w32. change 4294967295 with (Z.ones 32).
  rewrite Z.land_ones by lia. apply Z.mod_pos_bound. lia.
Qed.

Lemma compress_first_word st block :
  ∃ x, (HashFunction.compress st block).1.1.1.1 = HashFunction.w32 x.
Proof.
  destruct st as [[[[h0 h1] h2] h3] h4]. unfold HashFunction.compress.
  destruct (HashFunction.rounds _ _ _) as [[[[a b] c] d] e].
  by eexists.
Qed.

Lemma blocks_first_word fuel bs st :
  0 ≤ st.1.1.1.1 < 2 ^ 32 → 0 ≤ (HashFunction.blocks fuel bs st).1.1.1.1 < 2 ^ 32.
Proof.
  revert bs st. induction fuel as [|f IH]; intros bs st Hst; [done|].
  destruct bs as [|b bs]; [done|]. cbn [HashFunction.blocks]. apply IH.
  destruct (compress_first_word st (take 64 (b :: bs))) as [x ->].
  apply w32_range.
Qed.

Lemma sha1_first_word msg : 0 ≤ (HashFunction.sha1 msg).1.1.1.1 < 2 ^ 32.
Proof.
  unfold HashFunction.sha1. apply blocks_first_word.
  vm_compute. split; [discriminate|reflexivity].
Qed.

(** X1. For every argument that has a UTF-8 encoding, [hash32] returns a
    ring position: an integer in [0, 2^32). The argument is given by its
    encoding [data]; on a [str] without one (a lone surrogate) the source
    raises [UnicodeEncodeError] and returns nothing. *)
Theorem hash32_range data :
  0 ≤ HashFunction.hash32 data < HashFunction.RING_SIZE.
Proof.
  unfold HashFunction.hash32.
  pose proof (sha1_first_word (HashFunction.bytes_of_string data)) as Hrange.
  destruct (HashFunction.sha1 _) as [[[[h0 h1] h2] h3] h4].
  exact Hrange.
Qed.

(** ** What a call of [add_node] that returns has done *)

Lemma add_node_raises fuel node r e r' :
  add_node fuel node r = Some (inl e, r') →
  is_Some (_positions_by_node r !! node_id node) ∧ r' = r ∧
  e = ValueError ("Node " +:+ node_id node +:+ " already exists in ring").
Proof.
  unfold add_node. destruct (decide _) as [Hdup|_].
  - by intros [= <- <-].
  - by destruct (place_vnodes _ _ _ _) as [[??]|].
Qed.

Lemma add_node_returns fuel node r r' :
  0 ≤ vnodes_per_node r →
  add_node fuel node r = Some (inr (), r') →
  _positions_by_node r !! node_id node = None ∧
  vnodes_per_node r' = vnodes_per_node r ∧
  hash_fn r' = hash_fn r ∧
  ∃ new,
    _positions_by_node r' = <[node_id node := new]> (_positions_by_node r) ∧
    Z.of_nat (length new) = vnodes_per_node r ∧
    (∀ q, is_Some (_vnode_at r' !! q) ↔ is_Some (_vnode_at r !! q) ∨ q ∈ new) ∧
    (∀ q v, _vnode_at r !! q = Some v → _vnode_at r' !! q = Some v) ∧
    length (_positions r') = (length (_positions r) + length new)%nat ∧
    (∀ q, q ∈ _positions r' ↔ q ∈ _positions r ∨ q ∈ new) ∧
    (∀ k p, new !! k = Some p →
       _vnode_at r' !! p = Some (mkVNode node (Z.of_nat k)) ∧
       first_free (hash_fn r) (_vnode_at r) node 0 new k p).
Proof.
  intros HK. unfold add_node. destruct (decide _) as [|Hnew]; [done|].
  apply eq_None_not_Some in Hnew.
  destruct (place_vnodes _ _ _ _) as [[r1 pl]|] eqn:Hrun; [|done].
  intros [= <-].
  replace (seqZ 0 (vnodes_per_node r))
    with (seqZ (Z.of_nat (length (@nil Z))) (Z.of_nat (Z.to_nat (vnodes_per_node r))))
    in Hrun by (simpl; by rewrite Z2Nat.id by lia).
  pose proof (place_vnodes_config _ _ _ _ _ Hrun) as (HK1 & Hh1 & Hpbn1).
  apply place_vnodes_spec in Hrun
    as (new & -> & Hlen & Hdom & Hkeep & _ & Hps & Hel & Hplaced).
  simpl in *. split_and!; [done..|].
  exists new. rewrite Hpbn1, Hlen. split_and!; [done|lia|done..].
Qed.

(** ** Uniqueness of the successor *)

Lemma successor_of_unique ps h p q :
  successor_of ps h p → successor_of ps h q → p = q.
Proof.
  intros [Hp [[Hhp Hpmin]|[Hpall Hpmin]]] [Hq [[Hhq Hqmin]|[Hqall Hqmin]]].
  - specialize (Hpmin q Hq Hhq). specialize (Hqmin p Hp Hhp). lia.
  - specialize (Hqall p Hp). lia.
  - specialize (Hpall q Hq). lia.
  - specialize (Hpmin q Hq). specialize (Hqmin p Hp). lia.
Qed.

Lemma successor_of_subset ps ps' h p :
  (∀ q, q ∈ ps → q ∈ ps') → successor_of ps' h p → p ∈ ps → successor_of ps h p.
Proof.
  intros Hsub [_ [[Hhp Hmin]|[Hall Hmin]]] Hp; (split; [done|]).
  - left. split; [done|]. intros q Hq. apply Hmin. by apply Hsub.
  - right. split; intros q Hq; [apply Hall|apply Hmin]; by apply Hsub.
Qed.

(** A lookup that returns is decided by the successor position alone. *)
Lemma get_node_for_key_at r key p vnode :
  ring_inv r → successor_of (_positions r) (hash_fn r key) p →
  _vnode_at r !! p = Some vnode →
  get_node_for_key r key = inr (physical vnode).
Proof.
  intros Hinv Hsucc Hv.
  assert (_positions r ≠ []) as Hne.
  { destruct Hsucc as [Hp _]. intros Heq. rewrite Heq in Hp. by apply elem_of_nil in Hp. }
  destruct (get_node_for_key_spec r key Hinv Hne) as (p' & vnode' & Hsucc' & Hv' & ->).
  rewrite (successor_of_unique _ _ _ _ Hsucc' Hsucc) in Hv'. congruence.
Qed.

Lemma get_node_for_key_inr r key n :
  ring_inv r → get_node_for_key r key = inr n →
  ∃ p vnode, successor_of (_positions r) (hash_fn r key) p ∧
             _vnode_at r !! p = Some vnode ∧ n = physical vnode.
Proof.
  intros Hinv Hget.
  assert (_positions r ≠ []) as Hne.
  { intros Heq. unfold get_node_for_key in Hget. by rewrite Heq in Hget. }
  destruct (get_node_for_key_spec r key Hinv Hne) as (p & vnode & Hsucc & Hv & Hget').
  exists p, vnode. split_and!; [done..|]. congruence.
Qed.

(** ** More about the example rings *)

Lemma ring_b_removed : remove_node "node_12008" ring_ab = (inr (), ring_b).
Proof.
  unfold ring_b.
  assert ((remove_node "node_12008" ring_ab).1 = inr ()) as Hres
    by (vm_compute; reflexivity).
  by destruct (remove_node "node_12008" ring_ab) as [res r']; simpl in *; subst.
Qed.

Lemma ring_b_reachable : reachable ring_b.
Proof.
  eapply reachable_step; [exact ring_ab_reachable|].
  eapply step_remove, ring_b_removed.
Qed.

(** ** Consistent hashing: what a change of membership moves *)

Lemma add_node_lookup fuel node r r' key :
  ring_inv r → add_node fuel node r = Some (inr (), r') →
  ∃ n', get_node_for_key r' key = inr n' ∧
        (n' = node ∨ get_node_for_key r key = inr n').
Proof.
  intros Hinv Hadd.
  pose proof (add_node_inv _ _ _ _ _ Hinv Hadd) as Hinv'.
  pose proof (inv_K r Hinv) as HK.
  apply add_node_returns in Hadd
    as (_ & _ & Hhash & new & _ & Hlen & _ & Hkeep & Hps & Hel & Hplaced); [|lia].
  assert (_positions r' ≠ []) as Hne.
  { intros Heq. rewrite Heq in Hps. simpl in Hps. lia. }
  destruct (get_node_for_key_spec r' key Hinv' Hne) as (p & vnode & Hsucc & Hv & ->).
  exists (physical vnode). split; [done|].
  destruct (decide (p ∈ new)) as [Hnew|Hold].
  - left. apply list_elem_of_lookup_1 in Hnew as [k Hk].
    destruct (Hplaced k p Hk) as [Hv' _]. rewrite Hv in Hv'. by injection Hv' as ->.
  - right. assert (p ∈ _positions r) as Hp.
    { destruct Hsucc as [Hp _]. apply Hel in Hp as [Hp|Hp]; done. }
    destruct (proj1 (proj1 (proj2 (inv_index r Hinv)) p) Hp) as [v Hv0].
    pose proof (Hkeep _ _ Hv0) as Hv1. assert (v = vnode) as -> by congruence.
    apply (get_node_for_key_at r key p vnode Hinv); [|done].
    rewrite <-Hhash. apply (successor_of_subset _ (_positions r')); [|done..].
    intros q Hq. apply Hel. by left.
Qed.

(** X2. Adding a node moves keys only to the added node: after an
    [add_node] that returns, every lookup returns, and what it returns is
    the added node or the node the key had before; a key that is not
    given to the added node keeps its node. *)
Theorem add_node_moves_keys_only_to_new_node fuel node r r' key :
  reachable r → add_node fuel node r = Some (inr (), r') →
  ∃ n', get_node_for_key r' key = inr n' ∧
        (n' = node ∨ get_node_for_key r key = inr n') ∧
        (∀ n, get_node_for_key r key = inr n → n' ≠ node → n' = n).
Proof.
  intros Hinv%reachable_ring_inv Hadd.
  destruct (add_node_lookup fuel node r r' key Hinv Hadd) as (n' & Hget & Hcases).
  exists n'. split_and!; [done..|].
  intros n Hn Hother. destruct Hcases as [->|Hsame]; [done|congruence].
Qed.

Lemma add_node_moves_keys_only_to_new_node_witness :
  ∃ n', get_node_for_key ring_ab "user:4" = inr n' ∧
        (n' = mkNode "node_25593" ∨ get_node_for_key ring_a "user:4" = inr n') ∧
        (∀ n, get_node_for_key ring_a "user:4" = inr n →
              n' ≠ mkNode "node_25593" → n' = n).
Proof.
  apply (add_node_moves_keys_only_to_new_node 4 (mkNode "node_25593") ring_a ring_ab).
  - exact ring_a_reachable.
  - exact ring_ab_added.
Defined.

Lemma remove_node_lookup X r r' key n :
  ring_inv r → remove_node X r = (inr (), r') →
  get_node_for_key r key = inr n → node_id n ≠ X →
  get_node_for_key r' key = inr n.
Proof.
  intros Hinv Hrem Hget Hother.
  destruct (_positions_by_node r !! X) as [pl|] eqn:HX; cycle 1.
  { unfold remove_node in Hrem. by rewrite HX in Hrem. }
  destruct (remove_node_member r X pl Hinv HX)
    as (r1 & Hrem1 & Hinv' & _ & Hhash & _ & Hel & _ & Hva).
  rewrite Hrem in Hrem1. injection Hrem1 as <-.
  destruct (get_node_for_key_inr r key n Hinv Hget) as (p & vnode & Hsucc & Hv & ->).
  assert (p ∉ pl) as Hp.
  { intros [j Hj]%list_elem_of_lookup_1.
    pose proof (proj1 (proj2 (proj2 (inv_index r Hinv))) X pl j p HX Hj) as Hv'.
    rewrite Hv in Hv'. injection Hv' as ->. by destruct Hother. }
  apply (get_node_for_key_at r' key p vnode Hinv').
  - rewrite Hhash. apply (successor_of_subset _ (_positions r)); [|done|].
    + intros q Hq. by apply Hel in Hq as [Hq _].
    + apply Hel. split; [by destruct Hsucc|done].
  - by rewrite Hva, decide_False.
Qed.

(** X3. Removing a node moves only the keys it held: a key that a
    reachable ring resolves to another node resolves to the same node after
    a [remove_node] that returns, so a key whose node has changed was held
    by the removed node. *)
Theorem remove_node_keeps_other_keys X r r' key n :
  reachable r → remove_node X r = (inr (), r') →
  get_node_for_key r key = inr n →
  (node_id n ≠ X → get_node_for_key r' key = inr n) ∧
  (get_node_for_key r' key ≠ inr n → node_id n = X).
Proof.
  intros Hinv%reachable_ring_inv Hrem Hget. split.
  - intros Hother. exact (remove_node_lookup X r r' key n Hinv Hrem Hget Hother).
  - intros Hmoved. destruct (decide (node_id n = X)) as [|Hother]; [done|].
    destruct Hmoved. exact (remove_node_lookup X r r' key n Hinv Hrem Hget Hother).
Qed.

Lemma remove_node_keeps_other_keys_witness :
  (node_id (mkNode "node_25593") ≠ "node_12008" →
   get_node_for_key ring_b "user:1" = inr (mkNode "node_25593")) ∧
  (get_node_for_key ring_b "user:1" ≠ inr (mkNode "node_25593") →
   node_id (mkNode "node_25593") = "node_12008").
Proof.
  apply (remove_node_keeps_other_keys "node_12008" ring_ab ring_b "user:1").
  - exact ring_ab_reachable.
  - exact ring_b_removed.
  - vm_compute. reflexivity.
Defined.

(** ** Membership bookkeeping *)

Lemma remove_node_returns X r r' :
  remove_node X r = (inr (), r') →
  is_Some (_positions_by_node r !! X) ∧
  _positions_by_node r' = delete X (_positions_by_node r) ∧
  vnodes_per_node r' = vnodes_per_node r ∧ hash_fn r' = hash_fn r.
Proof.
  unfold remove_node. destruct (_positions_by_node r !! X) as [pl|]; [|done].
  pose proof (remove_positions_config pl r) as (HK & Hh & Hpbn).
  destruct (remove_positions pl r) as [[e|[]] r1]; [done|].
  intros [= <-]. simpl in *. rewrite Hpbn. split_and!; [by eexists|done..].
Qed.

Lemma HashRing_eq r1 r2 :
  vnodes_per_node r1 = vnodes_per_node r2 → hash_fn r1 = hash_fn r2 →
  _positions r1 = _positions r2 → _vnode_at r1 = _vnode_at r2 →
  _positions_by_node r1 = _positions_by_node r2 → r1 = r2.
Proof. destruct r1, r2. simpl. by intros -> -> -> -> ->. Qed.

(** X4. [add_node] followed by [remove_node] of the same node is a round
    trip: on a reachable ring, removing a node that has just been added
    returns and gives back the ring as it was, in every field. *)
Theorem add_then_remove_restores fuel node r r1 :
  reachable r → add_node fuel node r = Some (inr (), r1) →
  remove_node (node_id node) r1 = (inr (), r).
Proof.
  intros Hinv%reachable_ring_inv Hadd.
  pose proof (add_node_inv _ _ _ _ _ Hinv Hadd) as Hinv1.
  pose proof (inv_K r Hinv) as HK.
  apply add_node_returns in Hadd
    as (Hfresh & HK1 & Hhash & new & Hpbn & _ & Hdom & Hkeep & _ & Hel & Hplaced); [|lia].
  destruct (remove_node_member r1 (node_id node) new Hinv1)
    as (r2 & -> & Hinv2 & HK2 & Hhash2 & Hpbn2 & Hel2 & _ & Hva2).
  { by rewrite Hpbn, lookup_insert_eq. }
  assert (∀ q, q ∈ new → _vnode_at r !! q = None) as Hnew.
  { intros q [k Hk]%list_elem_of_lookup_1.
    destruct (Hplaced k q Hk) as [_ (a & _ & Hfree & _)].
    apply eq_None_not_Some. intros Hocc. apply Hfree. by left. }
  f_equal. apply HashRing_eq.
  - congruence.
  - congruence.
  - apply (StronglySorted_unique_strong Z.lt).
    + intros x y _ _ ??. lia.
    + apply (inv_index r2 Hinv2).
    + apply (inv_index r Hinv).
    + apply NoDup_Permutation.
      * apply StronglySorted_lt_NoDup, (inv_index r2 Hinv2).
      * apply StronglySorted_lt_NoDup, (inv_index r Hinv).
      * intros q. rewrite Hel2, Hel. split; [tauto|].
        intros Hq. split; [by left|]. intros Hq'%Hnew.
        apply (proj1 (proj2 (inv_index r Hinv))) in Hq as [v Hv]. congruence.
  - apply map_eq. intros q. rewrite Hva2.
    destruct (decide (q ∈ new)) as [Hq|Hq]; [by rewrite Hnew|].
    destruct (_vnode_at r !! q) as [v|] eqn:Hv; [by apply Hkeep|].
    apply eq_None_not_Some. rewrite Hdom, Hv. intros [[??]|?]; done.
  - rewrite Hpbn2, Hpbn, delete_insert_eq. by apply delete_id.
Qed.

Lemma add_then_remove_restores_witness :
  remove_node (node_id (mkNode "node_25593")) ring_ab = (inr (), ring_a).
Proof.
  apply (add_then_remove_restores 4 (mkNode "node_25593") ring_a ring_ab).
  - exact ring_a_reachable.
  - exact ring_ab_added.
Defined.

(** X5. In every reachable ring each member holds exactly
    [vnodes_per_node] positions: [total_vnodes] is [vnodes_per_node] times
    the number of members. *)
Theorem total_vnodes_per_member r :
  reachable r → total_vnodes r = vnodes_per_node r * node_count r.
Proof.
  unfold total_vnodes, node_count.
  induction 1 as [K h r Hinit|r r' Hreach IH Hstep].
  - unfold HashRing_init in Hinit. destruct (decide _); [done|].
    injection Hinit as <-. simpl. rewrite map_size_empty. lia.
  - pose proof (reachable_ring_inv r Hreach) as Hinv.
    pose proof (inv_K r Hinv) as HK.
    destruct Hstep as [fuel node r [e|[]] r' Hadd|id r res r' Hrem].
    + by apply add_node_raises in Hadd as (_ & -> & _).
    + apply add_node_returns in Hadd
        as (Hfresh & -> & _ & new & -> & Hlen & _ & _ & -> & _); [|lia].
      rewrite map_size_insert_None by done. lia.
    + destruct (_positions_by_node r !! id) as [pl|] eqn:Hid.
      * destruct (remove_node_member r id pl Hinv Hid)
          as (r1 & Hrem1 & _ & HK1 & _ & Hpbn1 & _ & Hlen & _).
        rewrite Hrem in Hrem1. injection Hrem1 as _ <-.
        rewrite HK1, Hpbn1.
        pose proof (inv_length r Hinv id pl Hid) as HlenK.
        pose proof (map_size_delete_Some id (_positions_by_node r)
                      ltac:(by eexists)) as Hsize.
        destruct (size (_positions_by_node r)) as [|n] eqn:Hn.
        { apply map_size_empty_inv in Hn. by rewrite Hn, lookup_empty in Hid. }
        simpl in Hsize. lia.
      * unfold remove_node in Hrem. rewrite Hid in Hrem. by injection Hrem as _ <-.
Qed.

Lemma total_vnodes_per_member_witness :
  total_vnodes ring_ab = vnodes_per_node ring_ab * node_count ring_ab.
Proof. apply (total_vnodes_per_member ring_ab). exact ring_ab_reachable. Defined.

(** X6. [list_nodes] returns the members in ascending order without
    repetition, as many as [len(ring)] counts; an [add_node] that returns
    adds exactly its node to the list and a [remove_node] that returns
    takes exactly its node out, on any ring. *)
Theorem list_nodes_members r :
  StronglySorted String.le (list_nodes r) ∧
  NoDup (list_nodes r) ∧
  Z.of_nat (length (list_nodes r)) = node_count r ∧
  (∀ id, id ∈ list_nodes r ↔ is_Some (_positions_by_node r !! id)) ∧
  (∀ fuel node r',
     0 ≤ vnodes_per_node r → add_node fuel node r = Some (inr (), r') →
     (node_id node ∉ list_nodes r) ∧
     ∀ id, id ∈ list_nodes r' ↔ id = node_id node ∨ id ∈ list_nodes r) ∧
  (∀ X r',
     remove_node X r = (inr (), r') →
     X ∈ list_nodes r ∧
     ∀ id, id ∈ list_nodes r' ↔ id ∈ list_nodes r ∧ id ≠ X).
Proof.
  split_and!.
  - apply StronglySorted_merge_sort; apply _.
  - unfold list_nodes. rewrite merge_sort_Permutation. apply NoDup_elements.
  - unfold list_nodes, node_count.
    rewrite merge_sort_Permutation, <-size_dom. done.
  - apply elem_of_list_nodes.
  - intros fuel node r' HK Hadd.
    apply add_node_returns in Hadd as (Hfresh & _ & _ & new & Hpbn & _); [|done].
    split.
    + rewrite elem_of_list_nodes, Hfresh. by intros [??].
    + intros id. rewrite !elem_of_list_nodes, Hpbn, lookup_insert_is_Some.
      destruct (decide (node_id node = id)); intuition congruence.
  - intros X r' Hrem. apply remove_node_returns in Hrem as (HX & Hpbn & _).
    split; [by apply elem_of_list_nodes|].
    intros id. rewrite !elem_of_list_nodes, Hpbn, lookup_delete_is_Some.
    intuition congruence.
Qed.

Lemma list_nodes_members_witness :
  (node_id (mkNode "node_25593") ∉ list_nodes ring_a) ∧
  ∀ id, id ∈ list_nodes ring_ab ↔ id = node_id (mkNode "node_25593") ∨ id ∈ list_nodes ring_a.
Proof.
  apply (list_nodes_members ring_a) with (fuel := 4%nat).
  - vm_compute. discriminate.
  - exact ring_ab_added.
Defined.

(** ** Where the occupied positions come from *)

Lemma candidate_hash32_range key a :
  0 ≤ candidate HashFunction.hash32 key a < 2 ^ 32.
Proof.
  assert (∀ data, 0 ≤ HashFunction.hash32 data < 2 ^ 32) as Hrange.
  { intros data. unfold HashFunction.hash32.
    pose proof (sha1_first_word (HashFunction.bytes_of_string data)) as Hrange.
    by destruct (HashFunction.sha1 _) as [[[[h0 h1] h2] h3] h4]. }
  destruct a; apply Hrange.
Qed.

Lemma reachable_positions_hashed r p v :
  reachable r → _vnode_at r !! p = Some v →
  ∃ a, p = candidate (hash_fn r) (vnode_key v) a.
Proof.
  intros Hreach. revert p v.
  induction Hreach as [K h r Hinit|r r' Hreach IH Hstep]; intros p v Hv.
  - unfold HashRing_init in Hinit. destruct (decide _); [done|].
    injection Hinit as <-. cbn [_vnode_at] in Hv. by rewrite lookup_empty in Hv.
  - pose proof (reachable_ring_inv r Hreach) as Hinv.
    pose proof (inv_K r Hinv) as HK.
    destruct Hstep as [fuel node r [e|[]] r' Hadd|id r res r' Hrem].
    + apply add_node_raises in Hadd as (_ & -> & _). by apply IH.
    + apply add_node_returns in Hadd
        as (_ & _ & Hhash & new & _ & _ & Hdom & Hkeep & _ & _ & Hplaced); [|lia].
      rewrite Hhash. destruct (decide (p ∈ new)) as [Hnew|Hold].
      * apply list_elem_of_lookup_1 in Hnew as [k Hk].
        destruct (Hplaced k p Hk) as [Hv' (a & -> & _)].
        exists a. by assert (v = mkVNode node (Z.of_nat k)) as -> by congruence.
      * destruct (proj1 (Hdom p)) as [[v0 Hv0]|?]; [by eexists| |done].
        pose proof (Hkeep _ _ Hv0). apply IH. congruence.
    + destruct (_positions_by_node r !! id) as [pl|] eqn:Hid.
      * destruct (remove_node_member r id pl Hinv Hid)
          as (r1 & Hrem1 & _ & _ & Hhash & _ & _ & _ & Hva).
        rewrite Hrem in Hrem1. injection Hrem1 as _ <-.
        rewrite Hhash. rewrite Hva in Hv.
        destruct (decide (p ∈ pl)); [done|]. by apply IH.
      * unfold remove_node in Hrem. rewrite Hid in Hrem.
        injection Hrem as _ <-. by apply IH.
Qed.

(** X7. Every occupied position of a reachable ring holds a virtual node,
    replica [i] of a node [id], and is the hash of ["<id>#vn<i>"] or, for
    some attempt [a > 0], of ["<id>#vn<i>@<a>"]; in a ring that uses the
    default hash function every position therefore lies in [0, 2^32). *)
Theorem positions_are_hashes r :
  reachable r →
  (∀ p, p ∈ _positions r →
     ∃ id i (a : nat),
       _vnode_at r !! p = Some (mkVNode (mkNode id) i) ∧
       p = hash_fn r (match a with
                      | O => id +:+ "#vn" +:+ pretty i
                      | S _ => id +:+ "#vn" +:+ pretty i +:+ "@" +:+ pretty (Z.of_nat a)
                      end)) ∧
  (hash_fn r = HashFunction.hash32 →
   ∀ p, p ∈ _positions r → 0 ≤ p < HashFunction.RING_SIZE).
Proof.
  intros Hreach. pose proof (reachable_ring_inv r Hreach) as Hinv.
  assert (∀ p, p ∈ _positions r →
     ∃ v a, _vnode_at r !! p = Some v ∧
            p = candidate (hash_fn r) (vnode_key v) a) as Hhashed.
  { intros p [v Hv]%(inv_index r Hinv).
    destruct (reachable_positions_hashed r p v Hreach Hv) as [a Ha]. by exists v, a. }
  split.
  - intros p (v & a & Hv & Hp)%Hhashed. destruct v as [[id] i].
    exists id, i, a. split; [done|].
    by rewrite Hp, candidate_attempt_string.
  - intros Hdefault p (v & a & _ & ->)%Hhashed.
    rewrite Hdefault. apply candidate_hash32_range.
Qed.

Lemma ring_ab_default_hash : hash_fn ring_ab = HashFunction.hash32.
Proof.
  assert (rtc step ring_empty ring_ab) as Hsteps.
  { apply (rtc_l _ _ ring_a).
    - apply (after_add_step "node_12008" ring_empty). vm_compute. reflexivity.
    - apply rtc_once, (after_add_step "node_25593" ring_a). vm_compute. reflexivity. }
  by apply rtc_step_config in Hsteps as [_ ->].
Qed.

Lemma positions_are_hashes_witness :
  Forall (λ p, ∃ id i (a : nat),
            _vnode_at ring_ab !! p = Some (mkVNode (mkNode id) i) ∧
            p = hash_fn ring_ab
                  (match a with
                   | O => id +:+ "#vn" +:+ pretty i
                   | S _ => id +:+ "#vn" +:+ pretty i +:+ "@" +:+ pretty (Z.of_nat a)
                   end))
         (_positions ring_ab) ∧
  Forall (λ p, 0 ≤ p < HashFunction.RING_SIZE) (_positions ring_ab).
Proof.
  destruct (positions_are_hashes ring_ab ring_ab_reachable) as [Hhashed Hrange].
  split; apply Forall_forall.
  - exact Hhashed.
  - exact (Hrange ring_ab_default_hash).
Defined.

(** ** [map_keys] *)

Lemma map_keys_raised (ring : HashRing) (keys : list string) (e : exn) :
  foldl (λ (acc : exn + gmap string string) k,
           match acc with
           | inl e => inl e
           | inr out =>
               match get_node_for_key ring k with
               | inl e => inl e
               | inr n => inr (<[k := node_id n]> out)
               end
           end) (inl e) keys = inl e.
Proof. induction keys as [|k keys IH]; [done|]. apply IH. Qed.

Lemma map_keys_from (ring : HashRing) (keys : list string) (acc : gmap string string) :
  ring_inv ring → _positions ring ≠ [] →
  ∃ m,
    foldl (λ (acc : exn + gmap string string) k,
             match acc with
             | inl e => inl e
             | inr out =>
                 match get_node_for_key ring k with
                 | inl e => inl e
                 | inr n => inr (<[k := node_id n]> out)
                 end
             end) (inr acc) keys = inr m ∧
    dom m = dom acc ∪ list_to_set keys ∧
    (∀ k, k ∈ keys →
       ∃ n, get_node_for_key ring k = inr n ∧ m !! k = Some (node_id n)) ∧
    (∀ k, k ∉ keys → m !! k = acc !! k).
Proof.
  intros Hinv Hne. revert acc.
  induction keys as [|k keys IH]; intros acc.
  { exists acc. split_and!; [done|set_solver| |done].
    intros k Hk. by apply elem_of_nil in Hk. }
  cbn [foldl].
  destruct (get_node_for_key_spec ring k Hinv Hne) as (p & vnode & _ & _ & Hget).
  rewrite Hget.
  destruct (IH (<[k := node_id (physical vnode)]> acc)) as (m & Hrun & Hdom & Hin & Hout).
  exists m. split_and!.
  - done.
  - rewrite Hdom, dom_insert_L. set_solver.
  - intros k' Hk'. destruct (decide (k' ∈ keys)) as [|Hnin]; [by apply Hin|].
    apply elem_of_cons in Hk' as [->|?]; [|done].
    exists (physical vnode). split; [done|].
    by rewrite Hout, lookup_insert_eq.
  - intros k' [Hne' Hnin]%not_elem_of_cons.
    by rewrite Hout, lookup_insert_ne.
Qed.

(** X8. On a reachable ring with at least one virtual node [map_keys]
    returns a mapping whose keys are exactly the given keys, duplicates
    merged, each mapped to the identifier of the node its lookup returns,
    which is a member of the ring. *)
Theorem map_keys_resolves r keys :
  reachable r → 0 < total_vnodes r →
  ∃ m, Rebalancer.map_keys r keys = inr m ∧
       dom m = list_to_set keys ∧
       ∀ k, k ∈ keys →
         ∃ n, get_node_for_key r k = inr n ∧ m !! k = Some (node_id n) ∧
              node_id n ∈ list_nodes r.
Proof.
  intros Hinv%reachable_ring_inv Hne%total_vnodes_pos.
  destruct (map_keys_from r keys ∅ Hinv Hne) as (m & Hrun & Hdom & Hin & _).
  exists m. split_and!.
  - done.
  - rewrite Hdom, dom_empty_L. set_solver.
  - intros k (n & Hget & Hk)%Hin. exists n. split_and!; [done..|].
    apply elem_of_list_nodes. by eapply get_node_for_key_member.
Qed.

Lemma map_keys_resolves_witness :
  ∃ m, Rebalancer.map_keys ring_ab sample_keys = inr m ∧
       dom m = list_to_set sample_keys ∧
       ∀ k, k ∈ sample_keys →
         ∃ n, get_node_for_key ring_ab k = inr n ∧ m !! k = Some (node_id n) ∧
              node_id n ∈ list_nodes ring_ab.
Proof.
  apply (map_keys_resolves ring_ab sample_keys).
  - exact ring_ab_reachable.
  - vm_compute. reflexivity.
Defined.

(** X9. On a ring without virtual nodes [map_keys] raises the empty-ring
    error of the first lookup as soon as there is a key to look up, and
    returns the empty mapping when there is none. *)
Theorem map_keys_empty_ring r keys :
  total_vnodes r = 0 →
  Rebalancer.map_keys r keys =
  match keys with
  | [] => inr ∅
  | _ :: _ => inl (ValueError "Ring is empty")
  end.
Proof.
  unfold total_vnodes. intros Hempty.
  assert (_positions r = []) as Hps by (destruct (_positions r); [done|simpl in *; lia]).
  destruct keys as [|k keys]; [done|].
  unfold Rebalancer.map_keys. cbn [foldl].
  rewrite (proj2 (get_node_for_key_empty r k) Hps). apply map_keys_raised.
Qed.

Lemma map_keys_empty_ring_witness :
  Rebalancer.map_keys ring_empty sample_keys = inl (ValueError "Ring is empty").
Proof. apply (map_keys_empty_ring ring_empty sample_keys). reflexivity. Defined.

(** ** [moved_key_stats] as a comparison *)

Lemma moved_keys_sym (before after : gmap string string) :
  dom before = dom after → moved_keys before after = moved_keys after before.
Proof.
  intros Hdom. unfold moved_keys. rewrite Hdom. apply set_eq. intros k.
  rewrite !elem_of_filter. intuition congruence.
Qed.

(** X10. [moved_key_stats] does not depend on the order of its two
    arguments: swapping the mappings gives the same result, error
    included. *)
Theorem moved_key_stats_symmetric {F : Type} `{PyFloat F}
    (before after : gmap string string) :
  Rebalancer.moved_key_stats before after = Rebalancer.moved_key_stats after before.
Proof.
  unfold Rebalancer.moved_key_stats.
  destruct (decide (dom before ≠ dom after)) as [Hne|Heq].
  - destruct (decide (dom after ≠ dom before)) as [|Hd]; [done|].
    destruct Hd. intros Heq. apply Hne. by symmetry.
  - apply dec_stable in Heq.
    destruct (decide (dom after ≠ dom before)) as [Hd|_]; [by destruct Hd|].
    rewrite !moved_count, (moved_keys_sym _ _ Heq).
    by rewrite <-(size_dom before), <-(size_dom after), Heq.
Qed.

(** X11. When [moved_key_stats] returns, the moved count lies between 0
    and the total, and it is 0 exactly when the two mappings are equal. *)
Theorem moved_key_stats_bounds {F : Type} `{PyFloat F}
    (before after : gmap string string) (moved total : Z) (pct : F) :
  Rebalancer.moved_key_stats before after = inr (moved, total, pct) →
  0 ≤ moved ≤ total ∧ (moved = 0 ↔ before = after).
Proof.
  unfold Rebalancer.moved_key_stats.
  destruct (decide (dom before ≠ dom after)) as [|Heq]; [done|].
  apply dec_stable in Heq. rewrite moved_count. intros [= <- <- _].
  split.
  - split; [lia|]. apply inj_le. rewrite <-size_dom.
    apply subseteq_size. unfold moved_keys. intros k [_ Hk]%elem_of_filter. exact Hk.
  - split.
    + intros Hzero. assert (size (moved_keys before after) = 0%nat) as Hsize by lia.
      apply size_empty_inv in Hsize. apply map_eq. intros k.
      destruct (decide (before !! k = after !! k)) as [|Hne]; [done|].
      destruct (before !! k) as [v|] eqn:Hk.
      * assert (k ∈ moved_keys before after) as Hin; [|by apply Hsize in Hin].
        apply elem_of_filter. split; [congruence|]. apply elem_of_dom. by eexists.
      * assert (k ∉ dom after) as Hnin by (rewrite <-Heq, elem_of_dom, Hk; by intros [??]).
        apply not_elem_of_dom in Hnin. congruence.
    + intros ->. replace (moved_keys after after) with (∅ : gset string); [done|].
      symmetry. apply set_eq. intros k. unfold moved_keys.
      rewrite elem_of_filter. set_solver.
Qed.

Lemma moved_key_stats_bounds_witness :
  0 ≤ 3 ≤ 4 ∧
  (3 = 0 ↔ mapping_of ring_a sample_keys = mapping_of ring_ab sample_keys).
Proof.
  apply (moved_key_stats_bounds (F := exact)
           (mapping_of ring_a sample_keys) (mapping_of ring_ab sample_keys)
           3 4 (Rational 75)).
  vm_compute. reflexivity.
Defined.

(** ** Measuring a change of membership *)

Lemma moved_key_stats_same_keys {F : Type} `{PyFloat F}
    (before after : gmap string string) :
  dom before = dom after →
  ∃ pct : F,
    Rebalancer.moved_key_stats before after
    = inr (Z.of_nat (size (moved_keys before after)), Z.of_nat (size (dom before)), pct).
Proof.
  intros Hdom. unfold Rebalancer.moved_key_stats.
  destruct (decide (dom before ≠ dom after)) as [Hne|_]; [by destruct Hne|].
  rewrite moved_count, size_dom. by eexists.
Qed.

(** X12. The measurement of an added node, as the experiment driver takes
    it: [map_keys] before and after an [add_node] that returns give
    mappings that [moved_key_stats] accepts, the total is the number of
    distinct keys, and every key counted as moved is mapped to the added
    node afterwards. *)
Theorem moved_keys_go_to_added_node {F : Type} `{PyFloat F} fuel node r r' keys :
  reachable r → 0 < total_vnodes r →
  add_node fuel node r = Some (inr (), r') →
  ∃ before after (pct : F),
    Rebalancer.map_keys r keys = inr before ∧
    Rebalancer.map_keys r' keys = inr after ∧
    Rebalancer.moved_key_stats before after
    = inr (Z.of_nat (size (moved_keys before after)),
           Z.of_nat (size (list_to_set keys : gset string)), pct) ∧
    ∀ k, k ∈ moved_keys before after → after !! k = Some (node_id node).
Proof.
  intros Hinv%reachable_ring_inv Hne%total_vnodes_pos Hadd.
  pose proof (add_node_inv _ _ _ _ _ Hinv Hadd) as Hinv'.
  assert (_positions r' ≠ []) as Hne'.
  { pose proof (inv_K r Hinv).
    apply add_node_returns in Hadd as (_ & _ & _ & new & _ & ? & _ & _ & Hps & _); [|lia].
    intros Heq. rewrite Heq in Hps. simpl in Hps. lia. }
  destruct (map_keys_from r keys ∅ Hinv Hne) as (before & Hb & Hdomb & Hinb & _).
  destruct (map_keys_from r' keys ∅ Hinv' Hne') as (after & Ha & Hdoma & Hina & _).
  rewrite dom_empty_L, (left_id_L ∅ (∪)) in Hdomb, Hdoma.
  destruct (moved_key_stats_same_keys (F := F) before after) as [pct Hstats];
    [congruence|].
  exists before, after, pct. rewrite <-Hdomb. split_and!; [done..|].
  intros k [Hmoved Hk]%elem_of_filter.
  rewrite Hdomb, elem_of_list_to_set in Hk.
  destruct (Hinb k Hk) as (n & Hn & Hbk). destruct (Hina k Hk) as (n' & Hn' & Hak).
  destruct (add_node_lookup fuel node r r' k Hinv Hadd) as (n'' & Hn'' & [->|Hsame]).
  - congruence.
  - destruct Hmoved. congruence.
Qed.

Lemma moved_keys_go_to_added_node_witness :
  ∃ before after (pct : exact),
    Rebalancer.map_keys ring_a sample_keys = inr before ∧
    Rebalancer.map_keys ring_ab sample_keys = inr after ∧
    Rebalancer.moved_key_stats before after
    = inr (Z.of_nat (size (moved_keys before after)),
           Z.of_nat (size (list_to_set sample_keys : gset string)), pct) ∧
    ∀ k, k ∈ moved_keys before after →
         after !! k = Some (node_id (mkNode "node_25593")).
Proof.
  apply (moved_keys_go_to_added_node 4 (mkNode "node_25593") ring_a ring_ab).
  - exact ring_a_reachable.
  - vm_compute. reflexivity.
  - exact ring_ab_added.
Defined.

(** X13. The measurement of a removed node: as long as the ring keeps a
    virtual node, [map_keys] before and after a [remove_node] that returns
    give mappings that [moved_key_stats] accepts, and every key counted as
    moved was mapped to the removed node before. *)
Theorem moved_keys_come_from_removed_node {F : Type} `{PyFloat F} X r r' keys :
  reachable r → remove_node X r = (inr (), r') → 0 < total_vnodes r' →
  ∃ before after (pct : F),
    Rebalancer.map_keys r keys = inr before ∧
    Rebalancer.map_keys r' keys = inr after ∧
    Rebalancer.moved_key_stats before after
    = inr (Z.of_nat (size (moved_keys before after)),
           Z.of_nat (size (list_to_set keys : gset string)), pct) ∧
    ∀ k, k ∈ moved_keys before after → before !! k = Some X.
Proof.
  intros Hinv%reachable_ring_inv Hrem Hne'%total_vnodes_pos.
  pose proof (remove_node_inv _ _ _ _ Hinv Hrem) as Hinv'.
  assert (_positions r ≠ []) as Hne.
  { destruct (remove_node_returns _ _ _ Hrem) as ([pl HX] & _).
    destruct (remove_node_member r X pl Hinv HX) as (r1 & Hrem1 & _ & _ & _ & _ & Hel & _).
    rewrite Hrem in Hrem1. injection Hrem1 as <-.
    destruct (_positions r') as [|p ps] eqn:Hps; [done|].
    destruct (proj1 (Hel p)) as [Hp _]; [by left|].
    intros Heq. rewrite Heq in Hp. by apply elem_of_nil in Hp. }
  destruct (map_keys_from r keys ∅ Hinv Hne) as (before & Hb & Hdomb & Hinb & _).
  destruct (map_keys_from r' keys ∅ Hinv' Hne') as (after & Ha & Hdoma & Hina & _).
  rewrite dom_empty_L, (left_id_L ∅ (∪)) in Hdomb, Hdoma.
  destruct (moved_key_stats_same_keys (F := F) before after) as [pct Hstats];
    [congruence|].
  exists before, after, pct. rewrite <-Hdomb. split_and!; [done..|].
  intros k [Hmoved Hk]%elem_of_filter.
  rewrite Hdomb, elem_of_list_to_set in Hk.
  destruct (Hinb k Hk) as (n & Hn & Hbk). destruct (Hina k Hk) as (n' & Hn' & Hak).
  destruct (decide (node_id n = X)) as [<-|Hother]; [done|].
  pose proof (remove_node_lookup X r r' k n Hinv Hrem Hn Hother).
  destruct Hmoved. congruence.
Qed.

Lemma moved_keys_come_from_removed_node_witness :
  ∃ before after (pct : exact),
    Rebalancer.map_keys ring_ab sample_keys = inr before ∧
    Rebalancer.map_keys ring_b sample_keys = inr after ∧
    Rebalancer.moved_key_stats before after
    = inr (Z.of_nat (size (moved_keys before after)),
           Z.of_nat (size (list_to_set sample_keys : gset string)), pct) ∧
    ∀ k, k ∈ moved_keys before after → before !! k = Some "node_12008".
Proof.
  apply (moved_keys_come_from_removed_node "node_12008" ring_ab ring_b).
  - exact ring_ab_reachable.
  - exact ring_b_removed.
  - vm_compute. reflexivity.
Defined.

(** ** The strings that are hashed *)

Lemma string_length_app (s t : string) :
  String.length (s +:+ t) = (String.length s + String.length t)%nat.
Proof. induction s as [|c s IH]; simpl; [done|]. by rewrite IH. Qed.

Lemma candidate_attempt_key hash key a :
  candidate hash key a = hash (attempt_key key a).
Proof. by destruct a. Qed.

(** X14. The strings hashed for one node never repeat: two replica indices
    of a node give different ring keys, and two attempts of the collision
    loop on one ring key hash different strings, so a retry never hashes a
    string that was already tried. *)
Theorem hashed_strings_distinct node key :
  (∀ i j, vnode_key (mkVNode node i) = vnode_key (mkVNode node j) → i = j) ∧
  (∀ a b, attempt_key key a = attempt_key key b → a = b) ∧
  (∀ hash a, candidate hash key a = hash (attempt_key key a)).
Proof.
  split_and!.
  - intros i j. unfold vnode_key. simpl.
    intros Heq%(inj (String.app _))%(inj (String.app _)). by apply (inj pretty).
  - assert (∀ a, key ≠ retry_key key a) as Hbase.
    { intros a Heq%(f_equal String.length). unfold retry_key in Heq.
      rewrite !string_length_app in Heq. simpl in Heq. lia. }
    intros [|a] [|b]; simpl; [done|by intros ?%Hbase|by intros ?%symmetry%Hbase|].
    unfold retry_key.
    intros Heq%(inj (String.app _))%(inj (String.app _))%(inj pretty). lia.
  - intros hash a. apply candidate_attempt_key.
Qed.

(** ** Exactly when the membership operations raise *)

(** X15. On a reachable ring [add_node] raises exactly for a node that is
    listed and [remove_node] returns exactly for a node that is listed;
    whenever either raises, it is the duplicate or the not-found error and
    the ring is unchanged. *)
Theorem membership_errors_exact r :
  reachable r →
  (∀ fuel node e r',
     add_node fuel node r = Some (inl e, r') ↔
     node_id node ∈ list_nodes r ∧ r' = r ∧
     e = ValueError ("Node " +:+ node_id node +:+ " already exists in ring")) ∧
  (∀ X, (∃ r', remove_node X r = (inr (), r')) ↔ X ∈ list_nodes r) ∧
  (∀ X e r',
     remove_node X r = (inl e, r') ↔
     (X ∉ list_nodes r) ∧ r' = r ∧
     e = ValueError ("Node " +:+ X +:+ " not found in ring")).
Proof.
  intros Hinv%reachable_ring_inv. split_and!.
  - intros fuel node e r'. rewrite elem_of_list_nodes. split.
    + apply add_node_raises.
    + intros (Hdup & -> & ->). unfold add_node. by rewrite decide_True.
  - intros X. rewrite elem_of_list_nodes. split.
    + intros [r' Hrem]. by apply remove_node_returns in Hrem as [? _].
    + intros [pl HX].
      destruct (remove_node_member r X pl Hinv HX) as (r' & Hrem & _). by exists r'.
  - intros X e r'. rewrite elem_of_list_nodes. split.
    + intros Hrem. destruct (_positions_by_node r !! X) as [pl|] eqn:HX.
      * destruct (remove_node_member r X pl Hinv HX) as (r1 & Hrem1 & _). congruence.
      * unfold remove_node in Hrem. rewrite HX in Hrem. injection Hrem as <- <-.
        split_and!; [by intros [??]|done..].
    + intros (HX & -> & ->). unfold remove_node.
      destruct (_positions_by_node r !! X); [|done]. destruct HX. by eexists.
Qed.

Lemma membership_errors_exact_witness :
  (∃ r', remove_node "node_12008" ring_ab = (inr (), r')) ↔
  "node_12008" ∈ list_nodes ring_ab.
Proof. apply (membership_errors_exact ring_ab). exact ring_ab_reachable. Defined.

(** ** What [distribution_stats] reports *)

Lemma load_positive mapping id : id ∈ members mapping → 1 ≤ load mapping id.
Proof.
  intros [k Hk]%elem_of_map_img. unfold load.
  assert ((k, id) ∈ filter (λ kv : string * string, kv.2 = id) (map_to_list mapping)) as Hin.
  { apply list_elem_of_filter. split; [done|]. by apply elem_of_map_to_list. }
  destruct (filter _ _); [by apply elem_of_nil in Hin|]. simpl. lia.
Qed.

Lemma loads_positive mapping c : c ∈ loads mapping → 1 ≤ c.
Proof.
  unfold loads. intros (id & -> & Hid%elem_of_elements)%list_elem_of_fmap.
  by apply load_positive.
Qed.

Lemma sum_Z_bounds (l : list Z) (lo hi : Z) :
  (∀ c, c ∈ l → lo ≤ c ≤ hi) →
  Z.of_nat (length l) * lo ≤ sum_Z l ≤ Z.of_nat (length l) * hi.
Proof.
  induction l as [|x l IH]; intros Hall; simpl; [lia|].
  pose proof (Hall x ltac:(by left)).
  assert (∀ c, c ∈ l → lo ≤ c ≤ hi) as Hrest by (intros c Hc; apply Hall; by right).
  specialize (IH Hrest). lia.
Qed.

Lemma sum_Z_elem (l : list Z) (x : Z) :
  (∀ c, c ∈ l → 0 ≤ c) → x ∈ l → x ≤ sum_Z l.
Proof.
  induction l as [|y l IH]; intros Hall Hx; [by apply elem_of_nil in Hx|].
  assert (∀ c, c ∈ l → 0 ≤ c) as Hrest by (intros c Hc; apply Hall; by right).
  pose proof (Hall y ltac:(by left)).
  assert (0 ≤ sum_Z l).
  { clear -Hrest. induction l as [|z l IH]; simpl; [lia|].
    pose proof (Hrest z ltac:(by left)).
    assert (0 ≤ sum_Z l); [apply IH; intros c Hc; apply Hrest; by right|lia]. }
  simpl. apply elem_of_cons in Hx as [->|Hx]; [lia|]. specialize (IH Hrest Hx). lia.
Qed.

(** The counts behind a non-empty mapping, and the dictionary built from
    them. *)
Lemma distribution_stats_counts {F : Type} `{PyFloat F} (mapping : gmap string string) :
  mapping ≠ ∅ →
  ∃ values mean var lo hi,
    values ≡ₚ loads mapping ∧ values ≠ [] ∧
    sum_Z values = Z.of_nat (size mapping) ∧
    length values = size (members mapping) ∧
    statistics.mean values = inr mean ∧
    statistics.pvariance values = inr var ∧
    lo ∈ values ∧ (∀ c, c ∈ values → lo ≤ c) ∧
    hi ∈ values ∧ (∀ c, c ∈ values → c ≤ hi) ∧
    Rebalancer.distribution_stats mapping
    = inr (Stats.mk (float_of_Z (Z.of_nat (length values))) (float_of_Z (sum_Z values))
                    (float_of_Q mean) (float_of_Q var) (float_sqrt_Q var)
                    (float_of_Z lo) (float_of_Z hi)).
Proof.
  intros Hmapping. unfold Rebalancer.distribution_stats.
  pose proof (values_loads mapping) as Hperm.
  pose proof (Counter_sum (map_to_list mapping).*2) as Hsum.
  rewrite length_fmap, length_map_to_list in Hsum.
  assert (length (map_to_list (Counter (map_to_list mapping).*2)).*2
          = size (members mapping)) as Hlen.
  { rewrite (Permutation_length Hperm). unfold loads. by rewrite length_fmap. }
  revert Hperm Hsum Hlen.
  generalize ((map_to_list (Counter (map_to_list mapping).*2)).*2) as values.
  intros values Hperm Hsum Hlen.
  assert (values ≠ []) as Hne.
  { intros ->. destruct Hmapping. apply map_size_empty_inv. simpl in Hsum. lia. }
  destruct (statistics_total values Hne)
    as (mean & var & lo & hi & Hmean & Hvar & Hstd & Hlo & Hhi & _
        & Hlo1 & Hlo2 & Hhi1 & Hhi2).
  exists values, mean, var, lo, hi. split_and!; [done..|].
  rewrite Hmean, Hvar, Hstd, Hlo, Hhi. by destruct values.
Qed.

(** X16. [distribution_stats] sees only the nodes that hold a key: for a
    non-empty mapping the minimum it reports is at least 1, whatever nodes
    the ring has, the maximum is at most the number of keys, the number of
    nodes is between 1 and the number of keys, and the number of keys lies
    between nodes times minimum and nodes times maximum. *)
Theorem distribution_stats_bounds {F : Type} `{PyFloat F} (mapping : gmap string string) :
  mapping ≠ ∅ →
  ∃ (s : Stats.t F) lo hi,
    Rebalancer.distribution_stats mapping = inr s ∧
    Stats.nodes s = float_of_Z (Z.of_nat (size (members mapping))) ∧
    Stats.keys s = float_of_Z (Z.of_nat (size mapping)) ∧
    Stats.min s = float_of_Z lo ∧ Stats.max s = float_of_Z hi ∧
    lo ∈ loads mapping ∧ hi ∈ loads mapping ∧
    1 ≤ lo ≤ hi ∧ hi ≤ Z.of_nat (size mapping) ∧
    1 ≤ Z.of_nat (size (members mapping)) ≤ Z.of_nat (size mapping) ∧
    Z.of_nat (size (members mapping)) * lo ≤ Z.of_nat (size mapping)
    ≤ Z.of_nat (size (members mapping)) * hi.
Proof.
  intros Hmapping.
  destruct (distribution_stats_counts (F := F) mapping Hmapping)
    as (values & mean & var & lo & hi & Hperm & Hne & Hsum & Hlen & _ & _
        & Hlo1 & Hlo2 & Hhi1 & Hhi2 & Hstats).
  assert (∀ c, c ∈ values → 1 ≤ c) as Hpos.
  { intros c Hc. apply (loads_positive mapping). by rewrite <-Hperm. }
  pose proof (sum_Z_bounds values lo hi
                ltac:(intros c Hc; split; [by apply Hlo2|by apply Hhi2])) as Hbounds.
  pose proof (sum_Z_bounds values 1 hi
                ltac:(intros c Hc; split; [by apply Hpos|by apply Hhi2])) as Hones.
  pose proof (sum_Z_elem values hi
                ltac:(intros c Hc; specialize (Hpos c Hc); lia) Hhi1) as Hmax.
  rewrite Hsum, Hlen in Hbounds, Hones. rewrite Hsum in Hmax.
  assert (0 < length values)%nat as Hlength by (destruct values; [done|simpl; lia]).
  eexists _, lo, hi. split; [exact Hstats|]. rewrite Hsum, Hlen. simpl.
  split_and!;
    first [done | by rewrite <-Hperm | by apply Hpos | by apply Hlo2 | lia].
Qed.

Lemma distribution_stats_bounds_witness :
  let mapping := mapping_of ring_ab sample_keys in
  ∃ (s : Stats.t exact) lo hi,
    Rebalancer.distribution_stats mapping = inr s ∧
    Stats.nodes s = float_of_Z (Z.of_nat (size (members mapping))) ∧
    Stats.keys s = float_of_Z (Z.of_nat (size mapping)) ∧
    Stats.min s = float_of_Z lo ∧ Stats.max s = float_of_Z hi ∧
    lo ∈ loads mapping ∧ hi ∈ loads mapping ∧
    1 ≤ lo ≤ hi ∧ hi ≤ Z.of_nat (size mapping) ∧
    1 ≤ Z.of_nat (size (members mapping)) ≤ Z.of_nat (size mapping) ∧
    Z.of_nat (size (members mapping)) * lo ≤ Z.of_nat (size mapping)
    ≤ Z.of_nat (size (members mapping)) * hi.
Proof.
  intros mapping. apply (distribution_stats_bounds (F := exact) mapping).
  intros Hempty. apply (f_equal size) in Hempty. vm_compute in Hempty. discriminate.
Defined.

(** ** The variance *)

Lemma inject_Z_nonneg z : 0 ≤ z → Qle 0 (inject_Z z).
Proof. intros Hz. unfold Qle. simpl. lia. Qed.

Lemma sum_sq_dev_nonneg mu l : Qle 0 (statistics.sum_sq_dev mu l).
Proof.
  induction l as [|x l IH]; simpl; [apply Qle_refl|].
  apply (Qle_trans _ (Qplus 0 0)); [unfold Qle; simpl; lia|].
  apply Qplus_le_compat; [apply (Qsqr_nonneg (Qminus (inject_Z x) mu))|exact IH].
Qed.

Lemma sum_sq_dev_const mu l x :
  Qeq mu (inject_Z x) → (∀ c, c ∈ l → c = x) →
  Qeq (statistics.sum_sq_dev mu l) 0.
Proof.
  intros Hmu. induction l as [|y l IH]; intros Hall; simpl; [reflexivity|].
  rewrite IH by (intros c Hc; apply Hall; by right).
  rewrite (Hall y ltac:(by left)), Hmu. ring.
Qed.

Lemma pvariance_nonneg l var : statistics.pvariance l = inr var → Qle 0 var.
Proof.
  unfold statistics.pvariance. destruct l as [|x l]; [done|]. cbv beta iota zeta.
  intros Hvar. apply (inj inr) in Hvar. rewrite <-Hvar. clear Hvar. rewrite Qred_correct. unfold Qdiv.
  apply Qmult_le_0_compat; [apply sum_sq_dev_nonneg|].
  apply Qinv_le_0_compat, inject_Z_nonneg. lia.
Qed.

Lemma pvariance_const l x var :
  (∀ c, c ∈ l → c = x) → statistics.pvariance l = inr var → var = 0%Q.
Proof.
  intros Hall. unfold statistics.pvariance. destruct l as [|y l]; [done|].
  cbv beta iota zeta.
  intros Hvar. apply (inj inr) in Hvar. rewrite <-Hvar. clear Hvar. change 0%Q with (Qred 0). apply Qred_complete.
  pose proof (sum_Z_bounds (y :: l) x x ltac:(intros c ->%Hall; lia)) as Hsum.
  assert (sum_Z (y :: l) = Z.of_nat (length (y :: l)) * x) as -> by lia.
  rewrite sum_sq_dev_const with (x := x); [|clear Hsum|done].
  - unfold Qdiv. ring.
  - assert (0 < Z.of_nat (length (y :: l))) as Hpos by (simpl; lia).
    destruct (Z.of_nat (length (y :: l))) as [|n|n]; [lia| |lia].
    unfold Qeq, Qdiv, Qmult, Qinv, inject_Z. simpl. lia.
Qed.

(** X17. The variance that [distribution_stats] reports is the float of
    the population variance of the per-node loads, the mean of their
    squared deviations from their arithmetic mean, taken in lowest terms,
    and the standard deviation is the square root of that fraction. The
    fraction is not negative, and it is zero when every node holds the same
    number of keys. *)
Theorem distribution_stats_variance {F : Type} `{PyFloat F} (mapping : gmap string string) :
  mapping ≠ ∅ →
  ∃ (s : Stats.t F) var,
    Rebalancer.distribution_stats mapping = inr s ∧
    statistics.pvariance (loads mapping) = inr var ∧
    var = Qred (population_variance (loads mapping)) ∧
    Stats.variance s = float_of_Q var ∧ Stats.stdev s = float_sqrt_Q var ∧
    Qle 0 var ∧
    ((∀ c c', c ∈ loads mapping → c' ∈ loads mapping → c = c') → var = 0%Q).
Proof.
  intros Hmapping.
  destruct (distribution_stats_counts (F := F) mapping Hmapping)
    as (values & mean & var & lo & hi & Hperm & Hne & _ & _ & _ & Hvar
        & Hlo1 & _ & _ & _ & Hstats).
  eexists _, var. split; [exact Hstats|]. simpl.
  rewrite <-(pvariance_Permutation _ _ Hperm).
  split_and!; [done| |done|done| |].
  - apply pvariance_population. by rewrite <-(pvariance_Permutation _ _ Hperm).
  - by eapply pvariance_nonneg.
  - intros Hbalanced. apply (pvariance_const values lo var); [|done].
    intros c Hc. apply Hbalanced; by rewrite <-Hperm.
Qed.

Lemma distribution_stats_variance_witness :
  let mapping := mapping_of ring_a sample_keys in
  ∃ (s : Stats.t exact) var,
    Rebalancer.distribution_stats mapping = inr s ∧
    statistics.pvariance (loads mapping) = inr var ∧
    var = Qred (population_variance (loads mapping)) ∧
    Stats.variance s = float_of_Q var ∧ Stats.stdev s = float_sqrt_Q var ∧
    Qle 0 var ∧
    ((∀ c c', c ∈ loads mapping → c' ∈ loads mapping → c = c') → var = 0%Q).
Proof.
  intros mapping. apply (distribution_stats_variance (F := exact) mapping).
  intros Hempty. apply (f_equal size) in Hempty. vm_compute in Hempty. discriminate.
Defined.

Example distribution_stats_balanced :
  Rebalancer.distribution_stats (F := exact) (mapping_of ring_a sample_keys)
  = inr (Stats.mk (Rational 1) (Rational 4) (Rational 4) (Rational 0)
                  (SqrtOf 0) (Rational 4) (Rational 4)).
Proof. vm_compute. reflexivity. Qed.
